(** * Key-sealed envelopes: a shallow embedding of the sealing and unsealing core

    The development follows the TypeScript sources of the package
    [key-sealed-envelope]: [sealCore] and its helpers ([generateCEK],
    [encryptPayload], [encryptCEK], [signEnvelope]), [unsealCore] and its
    helpers ([verifyEnvelope], [decryptCEK], [decryptCEKWithRSA],
    [decryptCEKWithECDH]), and the sealer classes' [seal] method.

    Effects are the code's: an asynchronous pipeline of WebCrypto calls, which
    read a random source and may throw.  They are modelled by a state and error
    monad whose state holds the random source and a trace of the provider calls
    made so far.  The cryptographic primitives themselves are external
    collaborators: they are the fields of the class [Platform], and the laws the
    proofs rely on (decryption inverts encryption, ECDH agreement, lengths) are
    the class [PlatformLaws]. *)

From Stdlib Require Import List String Ascii NArith ZArith Bool Lia Permutation.
Import ListNotations.

Open Scope list_scope.
Local Abbreviation length := List.length.

Abbreviation byte := Byte.byte.
Abbreviation bytes := (list Byte.byte).

(** A total conversion of a number below 256 to a byte. *)
Definition byte_of_N (n : N) : byte :=
  match Byte.of_N n with Some b => b | None => Byte.x00 end.

(** ** Results of JavaScript code: a value or a thrown error *)

Inductive JsError :=
  | Error (message : string)      (* [throw new Error(message)] *)
  | TypeError
  | RangeError
  | DataError                     (* WebCrypto [DataError] *)
  | OperationError                (* WebCrypto [OperationError] *)
  | InvalidAccessError            (* WebCrypto [InvalidAccessError] *)
  | InvalidCharacterError.        (* base64 decoding failure *)

Inductive result (A : Type) :=
  | Ok (a : A)
  | Err (e : JsError).
Arguments Ok {A} a.
Arguments Err {A} e.

Definition rbind {A B} (r : result A) (f : A -> result B) : result B :=
  match r with Ok a => f a | Err e => Err e end.

(** ** Base64

    Encoding is [Buffer.from(bytes).toString("base64")]: the standard alphabet
    with [=] padding. *)

Definition b64_digit (v : N) : ascii :=
  if (v <? 26)%N then ascii_of_N (65 + v)
  else if (v <? 52)%N then ascii_of_N (71 + v)
  else if (v <? 62)%N then ascii_of_N (v - 4)
  else if (v =? 62)%N then "+"%char
  else "/"%char.

Definition b64_value (c : ascii) : option N :=
  let n := N_of_ascii c in
  if ((65 <=? n) && (n <=? 90))%N then Some (n - 65)%N
  else if ((97 <=? n) && (n <=? 122))%N then Some (n - 71)%N
  else if ((48 <=? n) && (n <=? 57))%N then Some (n + 4)%N
  else if (n =? 43)%N then Some 62%N
  else if (n =? 47)%N then Some 63%N
  else None.

(** The 6-bit groups of a byte string, the last group zero-filled. *)
Fixpoint b64_sextets (bs : bytes) : list N :=
  match bs with
  | x :: y :: z :: rest =>
      let a := Byte.to_N x in let b := Byte.to_N y in let c := Byte.to_N z in
      (a / 4)%N :: ((a mod 4) * 16 + b / 16)%N :: ((b mod 16) * 4 + c / 64)%N
        :: (c mod 64)%N :: b64_sextets rest
  | [x; y] =>
      let a := Byte.to_N x in let b := Byte.to_N y in
      [(a / 4)%N; ((a mod 4) * 16 + b / 16)%N; ((b mod 16) * 4)%N]
  | [x] => let a := Byte.to_N x in [(a / 4)%N; ((a mod 4) * 16)%N]
  | [] => []
  end.

Definition b64_padding (bs : bytes) : list ascii :=
  match length bs mod 3 with
  | 1 => ["="%char; "="%char]
  | 2 => ["="%char]
  | _ => []
  end.

Definition base64 (bs : bytes) : string :=
  string_of_list_ascii (map b64_digit (b64_sextets bs) ++ b64_padding bs).

(** Modelled from the spec: [base64ToUint8Array] of [utils.ts], which the
    sources import but do not contain.  It decodes the [base64] blobs of the
    envelope.  The model is standard base64 decoding: strip the [=] padding of a
    text whose length is a multiple of 4, reject a character outside the
    alphabet and a text of length 1 modulo 4, and drop the unused low bits of
    the final character (as the repository's other decoder,
    [Buffer.from(s, "base64")], and the platform's [atob] both do). *)
Definition strip_padding (cs : list ascii) : list ascii :=
  if Nat.eqb (length cs mod 4) 0 then
    match rev cs with
    | c1 :: c2 :: r =>
        if (c1 =? "=")%char && (c2 =? "=")%char then rev r
        else if (c1 =? "=")%char then rev (c2 :: r) else cs
    | [c1] => if (c1 =? "=")%char then [] else cs
    | [] => cs
    end
  else cs.

Fixpoint b64_values (cs : list ascii) : option (list N) :=
  match cs with
  | [] => Some []
  | c :: rest =>
      match b64_value c, b64_values rest with
      | Some v, Some vs => Some (v :: vs)
      | _, _ => None
      end
  end.

Fixpoint sextets_to_bytes (vs : list N) : bytes :=
  match vs with
  | a :: b :: c :: d :: rest =>
      byte_of_N (a * 4 + b / 16) :: byte_of_N ((b mod 16) * 16 + c / 4)
        :: byte_of_N ((c mod 4) * 64 + d) :: sextets_to_bytes rest
  | [a; b; c] => [byte_of_N (a * 4 + b / 16); byte_of_N ((b mod 16) * 16 + c / 4)]
  | [a; b] => [byte_of_N (a * 4 + b / 16)]
  | _ => []
  end.

Definition base64ToUint8Array (s : string) : result bytes :=
  let cs := strip_padding (list_ascii_of_string s) in
  if Nat.eqb (length cs mod 4) 1 then Err InvalidCharacterError
  else match b64_values cs with
       | Some vs => Ok (sextets_to_bytes vs)
       | None => Err InvalidCharacterError
       end.

(** ** Strings, [TextEncoder] and JSON values

    A string is a sequence of code units below 256 ([ascii] holds 8 bits);
    [new TextEncoder().encode] is their UTF-8 encoding. *)

Definition utf8_of_code (n : N) : bytes :=
  if (n <? 128)%N then [byte_of_N n]
  else [byte_of_N (192 + n / 64); byte_of_N (128 + n mod 64)].

Definition text_encode (s : string) : bytes :=
  flat_map (fun c => utf8_of_code (N_of_ascii c)) (list_ascii_of_string s).

#[warnings="-register-all"]
Inductive json :=
  | JString (s : string)
  | JObject (fields : list (string * json)).

(** ** Plain JavaScript objects used as dictionaries

    An object is the list of its own properties in insertion order.  Reading
    a property that is not an own property finds the members of
    [Object.prototype] ([obj["constructor"]], [obj["__proto__"]], ...), which
    are objects and functions, never [undefined]. *)

Definition JsObj (V : Type) := list (string * V).

Inductive JsVal (V : Type) :=
  | JsUndefined
  | JsOwn (v : V)
  | JsInherited.      (* a member of [Object.prototype] *)
Arguments JsUndefined {V}.
Arguments JsOwn {V} v.
Arguments JsInherited {V}.

Definition object_prototype_members : list string :=
  ["constructor"; "__defineGetter__"; "__defineSetter__"; "hasOwnProperty";
   "__lookupGetter__"; "__lookupSetter__"; "isPrototypeOf";
   "propertyIsEnumerable"; "toString"; "valueOf"; "__proto__"; "toLocaleString"]%string.

Definition is_proto_member (k : string) : bool :=
  existsb (String.eqb k) object_prototype_members.

Fixpoint obj_lookup {V} (o : JsObj V) (k : string) : option V :=
  match o with
  | [] => None
  | (k', v) :: rest => if String.eqb k k' then Some v else obj_lookup rest k
  end.

(** [obj[k]] *)
Definition obj_get {V} (o : JsObj V) (k : string) : JsVal V :=
  match obj_lookup o k with
  | Some v => JsOwn v
  | None => if is_proto_member k then JsInherited else JsUndefined
  end.

Fixpoint obj_update {V} (o : JsObj V) (k : string) (v : V) : JsObj V :=
  match o with
  | [] => []
  | (k', v') :: rest =>
      if String.eqb k k' then (k', v) :: rest else (k', v') :: obj_update rest k v
  end.

(** [obj[k] = v] for a primitive [v]: an own property is overwritten in
    place; otherwise [__proto__] runs the [Object.prototype.__proto__] setter,
    which ignores a primitive, and any other key becomes a new last property. *)
Definition obj_set {V} (o : JsObj V) (k : string) (v : V) : JsObj V :=
  match obj_lookup o k with
  | Some _ => obj_update o k v
  | None => if String.eqb k "__proto__" then o else o ++ [(k, v)]
  end.

(** Array-index keys ("0", "1", ..., below 2^32 - 1) come first in
    [Object.keys] and [Object.entries], in ascending order. *)
Definition is_digit (c : ascii) : bool :=
  ((48 <=? N_of_ascii c) && (N_of_ascii c <=? 57))%N.

Definition digits_value (s : string) : N :=
  fold_left (fun acc c => acc * 10 + (N_of_ascii c - 48))%N (list_ascii_of_string s) 0%N.

Definition is_array_index (s : string) : bool :=
  match list_ascii_of_string s with
  | [] => false
  | c :: rest =>
      forallb is_digit (c :: rest)
      && (negb (Ascii.eqb c "0") || Nat.eqb (length rest) 0)
      && (digits_value s <? 4294967295)%N
  end.

Fixpoint insert_by_index {V} (kv : string * V) (o : JsObj V) : JsObj V :=
  match o with
  | [] => [kv]
  | kv' :: rest =>
      if (digits_value (fst kv) <? digits_value (fst kv'))%N then kv :: kv' :: rest
      else kv' :: insert_by_index kv rest
  end.

Definition obj_entries {V} (o : JsObj V) : list (string * V) :=
  fold_right insert_by_index [] (filter (fun kv => is_array_index (fst kv)) o)
    ++ filter (fun kv => negb (is_array_index (fst kv))) o.

Definition obj_keys {V} (o : JsObj V) : list string := map fst (obj_entries o).

Definition obj_values {V} (o : JsObj V) : list V := map snd (obj_entries o).

(** ** Provider calls, random source and the state and error monad

    Every call to [crypto.subtle] and [crypto.getRandomValues] leaves an
    event in the trace; the events of a call are the observable side effects
    the claims about ordering and pre-flight validation speak of. *)

Inductive event :=
  | EvGenerateKey (alg : string)
  | EvGetRandomValues (n : nat)
  | EvEncrypt (alg : string)
  | EvExportKey
  | EvDeriveKey
  | EvWrapKey
  | EvSign (message : bytes)
  | EvVerify (message : bytes) (ok : bool)
  | EvDecrypt (alg : string)
  | EvImportKey (alg : string)
  | EvUnwrapKey
  | EvDigest (input : bytes).

Record St := mkSt {
  rng : nat -> byte;      (* the secure random source *)
  pos : nat;              (* bytes of it consumed so far *)
  trace : list event      (* provider calls made so far *)
}.

Definition M (A : Type) := St -> result A * St.

Definition ret {A} (a : A) : M A := fun st => (Ok a, st).

Definition bind {A B} (m : M A) (k : A -> M B) : M B :=
  fun st => match m st with
            | (Ok a, st') => k a st'
            | (Err e, st') => (Err e, st')
            end.

Definition throw {A} (e : JsError) : M A := fun st => (Err e, st).

Definition lift {A} (r : result A) : M A := fun st => (r, st).

Definition lift_opt {A} (o : option A) (e : JsError) : M A :=
  fun st => match o with Some a => (Ok a, st) | None => (Err e, st) end.

Notation "x <- m ;; k" := (bind m (fun x => k))
  (at level 61, m at next level, right associativity).

Definition emit (e : event) : M unit :=
  fun st => (Ok tt, mkSt (rng st) (pos st) (trace st ++ [e])).

(** [n] bytes of the random source. *)
Definition draw (n : nat) : M bytes :=
  fun st => (Ok (map (rng st) (seq (pos st) n)), mkSt (rng st) (pos st + n) (trace st)).

(** ** Curves, key material and the platform's primitives *)

Inductive Curve := P_256 | P_384.

Definition curve_eqb (c d : Curve) : bool :=
  match c, d with P_256, P_256 | P_384, P_384 => true | _, _ => false end.

(** Byte length of a field element of the curve. *)
Definition coord_len (c : Curve) : nat := match c with P_256 => 32 | P_384 => 48 end.

(** The cryptographic primitives behind [crypto.subtle] and the [canonicalize]
    package: external collaborators of the code. *)
Class Platform := {
  KeyMat : Type;
  (* AES-GCM with a 16-byte tag: raw key, IV, plaintext; the output is
     ciphertext followed by the tag *)
  aes_gcm_encrypt : bytes -> bytes -> bytes -> bytes;
  aes_gcm_decrypt : bytes -> bytes -> bytes -> option bytes;
  (* RSA-OAEP with SHA-256: public key, seed, message *)
  rsa_oaep_encrypt : KeyMat -> bytes -> bytes -> option bytes;
  rsa_oaep_decrypt : KeyMat -> bytes -> option bytes;
  (* RSA-PSS with SHA-256: private key, salt, message / public key, signature, message *)
  rsa_pss_sign : KeyMat -> bytes -> bytes -> bytes;
  rsa_pss_verify : KeyMat -> bytes -> bytes -> bool;
  (* ECDSA with SHA-256: curve, private key, nonce, message *)
  ecdsa_sign : Curve -> KeyMat -> bytes -> bytes -> bytes;
  ecdsa_verify : Curve -> KeyMat -> bytes -> bytes -> bool;
  (* EC key pairs: a private key from a random seed, its public key, the raw
     (uncompressed point) export and import of public keys *)
  ec_generate : Curve -> bytes -> KeyMat;
  ec_public : Curve -> KeyMat -> KeyMat;
  ec_export_raw : Curve -> KeyMat -> bytes;
  ec_import_raw : Curve -> bytes -> option KeyMat;
  (* ECDH: own private key, peer public key; the shared secret *)
  ecdh_secret : Curve -> KeyMat -> KeyMat -> bytes;
  rsa_public : KeyMat -> KeyMat;
  sha256 : bytes -> bytes;
  (* the [canonicalize] package (JSON canonicalization) *)
  canonicalize : json -> string
}.

Section Core.
Context {P : Platform}.

(** ** [CryptoKey] handles

    A handle carries its algorithm and its material; [OtherKey] is a key of an
    algorithm the code does not use, reporting the given name. *)
Inductive CryptoKey :=
  | AesKey (raw : bytes)
  | RsaPssKey (m : KeyMat)
  | RsaOaepKey (m : KeyMat)
  | EcdsaKey (c : Curve) (m : KeyMat)
  | EcdhKey (c : Curve) (m : KeyMat)
  | OtherKey (name : string).

(** [key.algorithm.name] *)
Definition algorithm_name (k : CryptoKey) : string :=
  match k with
  | AesKey _ => "AES-GCM"
  | RsaPssKey _ => "RSA-PSS"
  | RsaOaepKey _ => "RSA-OAEP"
  | EcdsaKey _ _ => "ECDSA"
  | EcdhKey _ _ => "ECDH"
  | OtherKey n => n
  end.

(** [(key.algorithm as EcKeyImportParams).namedCurve] *)
Definition namedCurve (k : CryptoKey) : option Curve :=
  match k with EcdsaKey c _ | EcdhKey c _ => Some c | _ => None end.

Record CryptoKeyPair := { publicKey : CryptoKey; privateKey : CryptoKey }.

Definition aes_key_length_ok (raw : bytes) : bool :=
  Nat.eqb (length raw) 16 || Nat.eqb (length raw) 24 || Nat.eqb (length raw) 32.

(** ** The [crypto] calls the code makes *)

Definition getRandomValues (n : nat) : M bytes :=
  u <- emit (EvGetRandomValues n) ;; draw n.

(** [generateKey({name: "AES-GCM", length: 256}, ...)] *)
Definition subtle_generateKey_aes : M CryptoKey :=
  u <- emit (EvGenerateKey "AES-GCM") ;; raw <- draw 32 ;; ret (AesKey raw).

(** [generateKey({name: "ECDH", namedCurve}, ...)] *)
Definition subtle_generateKey_ecdh (c : Curve) : M CryptoKeyPair :=
  u <- emit (EvGenerateKey "ECDH") ;;
  seed <- draw (coord_len c) ;;
  let d := ec_generate c seed in
  ret {| publicKey := EcdhKey c (ec_public c d); privateKey := EcdhKey c d |}.

(** [exportKey("raw", key)] *)
Definition subtle_exportKey_raw (k : CryptoKey) : M bytes :=
  u <- emit EvExportKey ;;
  match k with
  | AesKey raw => ret raw
  | EcdhKey c m | EcdsaKey c m => ret (ec_export_raw c m)
  | _ => throw InvalidAccessError
  end.

(** [deriveKey({name: "ECDH", public}, baseKey, {name: "AES-GCM", length: 256}, ...)] *)
Definition subtle_deriveKey_ecdh (public baseKey : CryptoKey) : M CryptoKey :=
  u <- emit EvDeriveKey ;;
  match baseKey, public with
  | EcdhKey c d, EcdhKey c' q =>
      if curve_eqb c c' then
        let secret := ecdh_secret c d q in
        if Nat.ltb (length secret) 32 then throw OperationError
        else ret (AesKey (firstn 32 secret))
      else throw InvalidAccessError
  | _, _ => throw InvalidAccessError
  end.

Definition subtle_encrypt_aes_gcm (key : CryptoKey) (iv data : bytes) : M bytes :=
  u <- emit (EvEncrypt "AES-GCM") ;;
  match key with
  | AesKey raw => ret (aes_gcm_encrypt raw iv data)
  | _ => throw InvalidAccessError
  end.

Definition subtle_encrypt_rsa_oaep (key : CryptoKey) (data : bytes) : M bytes :=
  u <- emit (EvEncrypt "RSA-OAEP") ;;
  match key with
  | RsaOaepKey m => seed <- draw 32 ;; lift_opt (rsa_oaep_encrypt m seed data) OperationError
  | _ => throw InvalidAccessError
  end.

(** [wrapKey("raw", key, wrappingKey, {name: "AES-GCM", iv})] *)
Definition subtle_wrapKey_raw_aes_gcm (key wrappingKey : CryptoKey) (iv : bytes) : M bytes :=
  u <- emit EvWrapKey ;;
  match key, wrappingKey with
  | AesKey raw, AesKey w => ret (aes_gcm_encrypt w iv raw)
  | _, _ => throw InvalidAccessError
  end.

Definition subtle_sign_rsa_pss (key : CryptoKey) (message : bytes) : M bytes :=
  u <- emit (EvSign message) ;;
  match key with
  | RsaPssKey m => salt <- draw 32 ;; ret (rsa_pss_sign m salt message)
  | _ => throw InvalidAccessError
  end.

Definition subtle_sign_ecdsa (key : CryptoKey) (message : bytes) : M bytes :=
  u <- emit (EvSign message) ;;
  match key with
  | EcdsaKey c m => nonce <- draw (coord_len c) ;; ret (ecdsa_sign c m nonce message)
  | _ => throw InvalidAccessError
  end.

Definition subtle_verify_rsa_pss (key : CryptoKey) (signature message : bytes) : M bool :=
  match key with
  | RsaPssKey m =>
      let ok := rsa_pss_verify m signature message in
      u <- emit (EvVerify message ok) ;; ret ok
  | _ => u <- emit (EvVerify message false) ;; throw InvalidAccessError
  end.

Definition subtle_verify_ecdsa (key : CryptoKey) (signature message : bytes) : M bool :=
  match key with
  | EcdsaKey c m =>
      let ok := ecdsa_verify c m signature message in
      u <- emit (EvVerify message ok) ;; ret ok
  | _ => u <- emit (EvVerify message false) ;; throw InvalidAccessError
  end.

Definition subtle_decrypt_rsa_oaep (key : CryptoKey) (data : bytes) : M bytes :=
  u <- emit (EvDecrypt "RSA-OAEP") ;;
  match key with
  | RsaOaepKey m => lift_opt (rsa_oaep_decrypt m data) OperationError
  | _ => throw InvalidAccessError
  end.

Definition subtle_decrypt_aes_gcm (key : CryptoKey) (iv data : bytes) : M bytes :=
  u <- emit (EvDecrypt "AES-GCM") ;;
  match key with
  | AesKey raw => lift_opt (aes_gcm_decrypt raw iv data) OperationError
  | _ => throw InvalidAccessError
  end.

(** [importKey("raw", data, "AES-GCM", ...)] *)
Definition subtle_importKey_raw_aes (data : bytes) : M CryptoKey :=
  u <- emit (EvImportKey "AES-GCM") ;;
  if aes_key_length_ok data then ret (AesKey data) else throw DataError.

(** [importKey("raw", data, {name: "ECDH", namedCurve}, ...)] *)
Definition subtle_importKey_raw_ecdh (c : Curve) (data : bytes) : M CryptoKey :=
  u <- emit (EvImportKey "ECDH") ;;
  lift_opt (option_map (EcdhKey c) (ec_import_raw c data)) DataError.

(** [unwrapKey("raw", wrapped, unwrappingKey, {name: "AES-GCM", iv}, "AES-GCM", ...)] *)
Definition subtle_unwrapKey_raw_aes_gcm (wrapped : bytes) (unwrappingKey : CryptoKey)
    (iv : bytes) : M CryptoKey :=
  u <- emit EvUnwrapKey ;;
  match unwrappingKey with
  | AesKey w =>
      match aes_gcm_decrypt w iv wrapped with
      | Some raw => if aes_key_length_ok raw then ret (AesKey raw) else throw DataError
      | None => throw OperationError
      end
  | _ => throw InvalidAccessError
  end.

Definition subtle_digest_sha256 (data : bytes) : M bytes :=
  u <- emit (EvDigest data) ;; ret (sha256 data).



(** ** [Uint8Array] operations, with JavaScript's relative indices and range checks *)

Definition rel_index (len r : Z) : Z :=
  if (r <? 0)%Z then Z.max (len + r) 0 else Z.min r len.

(** [a.subarray(begin, end)] ([None] for an absent [end]) *)
Definition subarray (a : bytes) (b : Z) (e : option Z) : bytes :=
  let len := Z.of_nat (length a) in
  let start := rel_index len b in
  let stop := match e with Some e => rel_index len e | None => len end in
  firstn (Z.to_nat (stop - start)) (skipn (Z.to_nat start) a).

(** [new Uint8Array(n)] *)
Definition u8_new (n : Z) : result bytes :=
  if (n <? 0)%Z then Err RangeError else Ok (repeat Byte.x00 (Z.to_nat n)).

(** [target.set(src, offset)] *)
Definition u8_set (target src : bytes) (offset : Z) : result bytes :=
  if (offset <? 0)%Z then Err RangeError
  else if (Z.of_nat (length target) <? Z.of_nat (length src) + offset)%Z then Err RangeError
  else Ok (firstn (Z.to_nat offset) target ++ src
           ++ skipn (Z.to_nat offset + length src) target).

(** [const r = new Uint8Array(a.length + b.length); r.set(a); r.set(b, a.length)],
    the idiom [encryptPayload], [encryptCEK] and [encryptCEKWithECDH] use to
    concatenate two arrays. *)
Definition u8_concat (a b : bytes) : result bytes :=
  rbind (u8_new (Z.of_nat (length a) + Z.of_nat (length b))%Z) (fun r =>
  rbind (u8_set r a 0%Z) (fun r =>
  u8_set r b (Z.of_nat (length a)))).

(** The commitment input, built by the same statements in [sealCore] and in
    [unsealCore] from the encrypted payload [encrypted]:
    [iv = encrypted.subarray(0, 12)], [gcmTag = encrypted.subarray(-16)], a
    fresh array of length [separator.length + iv.length + (encrypted.length - 28)
    + gcmTag.length] and four [set] calls at the running offset. *)
Definition build_ctx_input (separator encrypted : bytes) : result bytes :=
  let iv := subarray encrypted 0%Z (Some 12%Z) in
  let gcmTag := subarray encrypted (-16)%Z None in
  let len := Z.of_nat (length encrypted) in
  rbind (u8_new (Z.of_nat (length separator) + Z.of_nat (length iv) + (len - 28)
                 + Z.of_nat (length gcmTag))%Z) (fun ctxInput =>
  let offset := 0%Z in
  rbind (u8_set ctxInput separator offset) (fun ctxInput =>
  let offset := (offset + Z.of_nat (length separator))%Z in
  rbind (u8_set ctxInput iv offset) (fun ctxInput =>
  let offset := (offset + Z.of_nat (length iv))%Z in
  rbind (u8_set ctxInput (subarray encrypted 12%Z (Some (-16)%Z)) offset) (fun ctxInput =>
  let offset := (offset + (len - 28)%Z)%Z in
  u8_set ctxInput gcmTag offset)))).

(** Modelled from the spec: [areUint8ArraysEqual] of [utils.ts], which is
    missing; byte-for-byte equality, written like the file's [areBuffersEqual]
    (lengths first, then every position). *)
Fixpoint bytes_eqb (a b : bytes) : bool :=
  match a, b with
  | [], [] => true
  | x :: a', y :: b' => Byte.eqb x y && bytes_eqb a' b'
  | _, _ => false
  end.

Definition areUint8ArraysEqual (a b : bytes) : bool :=
  Nat.eqb (length a) (length b) && bytes_eqb a b.

(** ** The envelope *)

Record KeySealedEnvelope := mkEnvelope {
  kid : string;
  cek : JsObj string;
  payload : string;
  signature : string;
  ctx : string
}.

(** The object [{kid, cek, payload}] given to [canonicalize]. *)
Definition envelope_json (kid : string) (cek : JsObj string) (payload : string) : json :=
  JObject [("kid", JString kid);
           ("cek", JObject (map (fun kv => (fst kv, JString (snd kv))) (obj_entries cek)));
           ("payload", JString payload)]%string.

Inductive Plaintext :=
  | PText (s : string)      (* [typeof plaintext === "string"] *)
  | PBytes (b : bytes).

Definition plaintext_bytes (p : Plaintext) : bytes :=
  match p with PText s => text_encode s | PBytes b => b end.

(** ** Sealing ([sealer/helpers.ts], [sealer/core.ts], [encryptCEKWithRSA],
    [encryptCEKWithECDH], [signEnvelopeWithRSA], [signEnvelopeWithEC]) *)

Definition generateCEK : M CryptoKey := subtle_generateKey_aes.

Definition encryptPayload (plaintext : Plaintext) (cek : CryptoKey) : M bytes :=
  iv <- getRandomValues 12 ;;
  let plaintextBytes := plaintext_bytes plaintext in
  ciphertext <- subtle_encrypt_aes_gcm cek iv plaintextBytes ;;
  lift (u8_concat iv ciphertext).

Definition encryptCEKWithRSA (cek recipientKey : CryptoKey) : M bytes :=
  exportedCEK <- subtle_exportKey_raw cek ;;
  subtle_encrypt_rsa_oaep recipientKey exportedCEK.

Definition encryptCEKWithECDH (cek recipientKey : CryptoKey) (ephemeralKey : CryptoKeyPair)
    : M bytes :=
  sharedSecret <- subtle_deriveKey_ecdh recipientKey (privateKey ephemeralKey) ;;
  iv <- getRandomValues 12 ;;
  wrapped <- subtle_wrapKey_raw_aes_gcm cek sharedSecret iv ;;
  lift (u8_concat iv wrapped).

Definition encryptCEK (cek recipientKey : CryptoKey) : M bytes :=
  if String.eqb (algorithm_name recipientKey) "RSA-OAEP" then
    encryptCEKWithRSA cek recipientKey
  else if String.eqb (algorithm_name recipientKey) "ECDH" then
    match namedCurve recipientKey with
    | Some c =>
        ephemeralKey <- subtle_generateKey_ecdh c ;;
        ephemeralKeyBytes <- subtle_exportKey_raw (publicKey ephemeralKey) ;;
        encryptedKeyBytes <- encryptCEKWithECDH cek recipientKey ephemeralKey ;;
        lift (u8_concat ephemeralKeyBytes encryptedKeyBytes)
    | None => throw TypeError
    end
  else throw (Error "Unsupported key type").

Definition signEnvelopeWithRSA (message : bytes) (senderKey : CryptoKey) : M bytes :=
  subtle_sign_rsa_pss senderKey message.

Definition signEnvelopeWithEC (message : bytes) (senderKey : CryptoKey) : M bytes :=
  subtle_sign_ecdsa senderKey message.

Definition signEnvelope (data : json) (senderKey : CryptoKey) : M string :=
  let message := text_encode (canonicalize data) in
  signature <- (if String.eqb (algorithm_name senderKey) "RSA-PSS" then
                  signEnvelopeWithRSA message senderKey
                else if String.eqb (algorithm_name senderKey) "ECDSA" then
                  signEnvelopeWithEC message senderKey
                else throw (Error "Unsupported key type")) ;;
  ret (base64 signature).

(** The loop [for (const [kid, recipientKey] of Object.entries(recipientKeys))]
    filling [encryptedCEKs]. *)
Fixpoint encrypt_ceks (cek : CryptoKey) (entries : list (string * CryptoKey))
    (encryptedCEKs : JsObj string) : M (JsObj string) :=
  match entries with
  | [] => ret encryptedCEKs
  | (kid, recipientKey) :: rest =>
      encryptedCEK <- encryptCEK cek recipientKey ;;
      encrypt_ceks cek rest (obj_set encryptedCEKs kid (base64 encryptedCEK))
  end.

(** Modelled from the spec: [CTX_CONSTANT_STRING] of [constants.ts], which is
    missing: the fixed ASCII domain separator shared by sealing and unsealing.
    Every statement below holds for every value of it. *)
Variable CTX_CONSTANT_STRING : string.

Definition is_rsa_sender (k : CryptoKey) : bool := String.eqb (algorithm_name k) "RSA-PSS".
Definition is_ec_sender (k : CryptoKey) : bool := String.eqb (algorithm_name k) "ECDSA".
Definition is_rsa_recipient (k : CryptoKey) : bool := String.eqb (algorithm_name k) "RSA-OAEP".
Definition is_ec_recipient (k : CryptoKey) : bool := String.eqb (algorithm_name k) "ECDH".

Definition sealCore (payload : Plaintext) (senderKey : CryptoKey) (senderKid : string)
    (recipientKeys : JsObj CryptoKey) : M KeySealedEnvelope :=
  if Nat.eqb (length (obj_keys recipientKeys)) 0 then throw (Error "No recipients specified")
  else
  let isRSASender := is_rsa_sender senderKey in
  let isECSender := is_ec_sender senderKey in
  if existsb (fun recipientKey =>
                (isRSASender && is_ec_recipient recipientKey)
                || (isECSender && is_rsa_recipient recipientKey))
             (obj_values recipientKeys)
  then throw (Error "Mixed key types not supported")
  else
  cek <- generateCEK ;;
  encryptedPayload <- encryptPayload payload cek ;;
  encryptedCEKs <- encrypt_ceks cek (obj_entries recipientKeys) [] ;;
  let payload64 := base64 encryptedPayload in
  signature <- signEnvelope (envelope_json senderKid encryptedCEKs payload64) senderKey ;;
  ctxInput <- lift (build_ctx_input (text_encode CTX_CONSTANT_STRING) encryptedPayload) ;;
  ctxTag <- subtle_digest_sha256 ctxInput ;;
  ret {| kid := senderKid; cek := encryptedCEKs; payload := payload64;
         signature := signature; ctx := base64 ctxTag |}.

(** ** Unsealing ([unsealer/helpers.ts], [unsealer/core.ts], [unsealer/ec.ts],
    [unsealer/rsa.ts]) *)

Definition verifyEnvelopeWithRSA (message signature : bytes) (senderPublicKey : CryptoKey)
    : M bool :=
  subtle_verify_rsa_pss senderPublicKey signature message.

Definition verifyEnvelopeWithEC (message signature : bytes) (senderPublicKey : CryptoKey)
    : M bool :=
  subtle_verify_ecdsa senderPublicKey signature message.

Definition verifyEnvelope (data : json) (signature : string) (senderPublicKey : CryptoKey)
    : M bool :=
  let message := text_encode (canonicalize data) in
  signatureBytes <- lift (base64ToUint8Array signature) ;;
  if String.eqb (algorithm_name senderPublicKey) "RSA-PSS" then
    verifyEnvelopeWithRSA message signatureBytes senderPublicKey
  else if String.eqb (algorithm_name senderPublicKey) "ECDSA" then
    verifyEnvelopeWithEC message signatureBytes senderPublicKey
  else throw (Error "Unsupported key type").

(** Modelled from the spec: [base64ToUint8Array] applied to what [obj[k]]
    returns.  A value that is not a string (an absent entry, or a member of
    [Object.prototype]) is not base64 text; the model throws [TypeError], as
    [Buffer.from] does for [undefined]. *)
Definition base64_of_val (v : JsVal string) : result bytes :=
  match v with
  | JsOwn s => base64ToUint8Array s
  | _ => Err TypeError
  end.

Definition decryptCEKWithRSA (encryptedCEK : bytes) (recipientKey : CryptoKey) : M CryptoKey :=
  decryptedCEK <- subtle_decrypt_rsa_oaep recipientKey encryptedCEK ;;
  subtle_importKey_raw_aes decryptedCEK.

Definition decryptCEKWithECDH (encryptedCEK : bytes) (recipientKey senderEphemeralKey : CryptoKey)
    : M CryptoKey :=
  sharedSecret <- subtle_deriveKey_ecdh senderEphemeralKey recipientKey ;;
  let iv := subarray encryptedCEK 0%Z (Some 12%Z) in
  let wrappedKey := subarray encryptedCEK 12%Z None in
  subtle_unwrapKey_raw_aes_gcm wrappedKey sharedSecret iv.

Definition decryptCEK (encryptedCEK : JsVal string) (recipientKey : CryptoKey) : M CryptoKey :=
  encryptedBytes <- lift (base64_of_val encryptedCEK) ;;
  if String.eqb (algorithm_name recipientKey) "RSA-OAEP" then
    decryptCEKWithRSA encryptedBytes recipientKey
  else if String.eqb (algorithm_name recipientKey) "ECDH" then
    let ephemeralKeyBytes := subarray encryptedBytes 0%Z (Some 65%Z) in
    let encryptedKeyBytes := subarray encryptedBytes 65%Z None in
    match namedCurve recipientKey with
    | Some c =>
        ephemeralKey <- subtle_importKey_raw_ecdh c ephemeralKeyBytes ;;
        decryptCEKWithECDH encryptedKeyBytes recipientKey ephemeralKey
    | None => throw TypeError
    end
  else throw (Error "Unsupported key type").

(** [unsealCore] of [unsealer/core.ts].  A sender id naming a member of
    [Object.prototype] passes the [!senderKey] test; [verifyEnvelope] then
    decodes the signature and fails reading [senderPublicKey.algorithm.name]. *)
Definition unsealCore (envelope : KeySealedEnvelope) (recipientKey : CryptoKey)
    (recipientKid : string) (senderKeys : JsObj CryptoKey) : M bytes :=
  let data := envelope_json (kid envelope) (cek envelope) (payload envelope) in
  match obj_get senderKeys (kid envelope) with
  | JsUndefined => throw (Error "Unknown sender key")
  | JsInherited =>
      signatureBytes <- lift (base64ToUint8Array (signature envelope)) ;;
      throw TypeError
  | JsOwn senderKey =>
      signatureValid <- verifyEnvelope data (signature envelope) senderKey ;;
      if negb signatureValid then throw (Error "Invalid envelope signature")
      else
      cek <- decryptCEK (obj_get (cek envelope) recipientKid) recipientKey ;;
      encrypted <- lift (base64ToUint8Array (payload envelope)) ;;
      let iv := subarray encrypted 0%Z (Some 12%Z) in
      ctxInput <- lift (build_ctx_input (text_encode CTX_CONSTANT_STRING) encrypted) ;;
      computedCtx <- subtle_digest_sha256 ctxInput ;;
      expectedCtx <- lift (base64ToUint8Array (ctx envelope)) ;;
      if negb (areUint8ArraysEqual computedCtx expectedCtx) then throw (Error "Invalid CTX tag")
      else
      decrypted <- subtle_decrypt_aes_gcm cek iv (subarray encrypted 12%Z None) ;;
      ret decrypted
  end.

End Core.

(** ** [decryptPayload] of [unsealer/helpers.ts]

    The exported helper that decrypts a [payload] text with a CEK; the
    [unsealCore] above inlines the same steps around its commitment check. *)
Section HelpersExtra.
Context {P : Platform}.

Definition decryptPayload (encryptedPayload : string) (cek : CryptoKey) : M bytes :=
  encryptedBytes <- lift (base64ToUint8Array encryptedPayload) ;;
  let iv := subarray encryptedBytes 0%Z (Some 12%Z) in
  let ciphertext := subarray encryptedBytes 12%Z None in
  decrypted <- subtle_decrypt_aes_gcm cek iv ciphertext ;;
  ret decrypted.

End HelpersExtra.

(** ** [areBuffersEqual] of [utils.ts]

    The loop [for (let i = 0; i < a8.length; i++)] comparing [a8[i]] with
    [b8[i]]; an index past the end reads [undefined] ([None]). *)
Fixpoint areBuffersEqual_loop (a8 b8 : bytes) (i n : nat) : bool :=
  match n with
  | 0 => true
  | S n' =>
      match nth_error a8 i, nth_error b8 i with
      | Some x, Some y => if Byte.eqb x y then areBuffersEqual_loop a8 b8 (S i) n' else false
      | None, None => areBuffersEqual_loop a8 b8 (S i) n'
      | _, _ => false
      end
  end.

Definition areBuffersEqual (a b : bytes) : bool :=
  if negb (Nat.eqb (length a) (length b)) then false
  else areBuffersEqual_loop a b 0 (length a).

(** ** The sealer classes

    [RSASealer] and [ECSealer] differ only in how [create] imports keys; their
    [seal] methods are the same code.  [recipientKeys] is a [Map], a list of
    distinct keys; [recipientKeyMap] is a plain object literal [{}]. *)
Module Sealer.
Section Sealer.
Context {P : Platform}.

Record Sealer := mkSealer {
  privateKey : CryptoKey;
  privateKid : string;
  recipientKeys : list (string * CryptoKey)
}.

(** The plain object [recipientKeyMap] and its prototype: assigning a key
    to its [__proto__] makes the [CryptoKey] its prototype, and a later
    assignment to one of the getter-only accessors of [CryptoKey.prototype]
    throws in the module's strict code. *)
Record KeyMapObj := mkKeyMapObj {
  km_own : JsObj CryptoKey;
  km_proto_is_key : bool
}.

Definition cryptokey_accessors : list string :=
  ["type"; "extractable"; "algorithm"; "usages"]%string.

(** [recipientKeyMap[kid] = key] *)
Definition keymap_set (o : KeyMapObj) (k : string) (v : CryptoKey) : result KeyMapObj :=
  match obj_lookup (km_own o) k with
  | Some _ => Ok (mkKeyMapObj (obj_update (km_own o) k v) (km_proto_is_key o))
  | None =>
      if String.eqb k "__proto__" then Ok (mkKeyMapObj (km_own o) true)
      else if km_proto_is_key o && existsb (String.eqb k) cryptokey_accessors
      then Err TypeError
      else Ok (mkKeyMapObj (km_own o ++ [(k, v)]) (km_proto_is_key o))
  end.

(** The loop over [recipientKids] in [seal]. *)
Fixpoint collect_recipients (known : list (string * CryptoKey)) (recipientKids : list string)
    (recipientKeyMap : KeyMapObj) : result KeyMapObj :=
  match recipientKids with
  | [] => Ok recipientKeyMap
  | kid :: rest =>
      match obj_lookup known kid with        (* this.recipientKeys.get(kid) *)
      | None => Err (Error ("Unknown recipient: " ++ kid))
      | Some key =>
          rbind (keymap_set recipientKeyMap kid key) (collect_recipients known rest)
      end
  end.

Definition seal (CTX_CONSTANT_STRING : string) (self : Sealer) (payload : Plaintext)
    (recipientKids : list string) : M KeySealedEnvelope :=
  recipientKeyMap <- lift (collect_recipients (recipientKeys self) recipientKids
                             (mkKeyMapObj [] false)) ;;
  sealCore CTX_CONSTANT_STRING payload (privateKey self) (privateKid self)
    (km_own recipientKeyMap).

End Sealer.
End Sealer.

(** ** The unsealer classes

    [RSAUnsealer] and [ECUnsealer] differ only in how [create] imports keys;
    their [unseal] methods are the same code.  [senderKeys] is a [Map], a list
    of distinct keys. *)
Module Unsealer.
Section Unsealer.
Context {P : Platform}.

Record Unsealer := mkUnsealer {
  privateKey : CryptoKey;
  privateKid : string;
  senderKeys : list (string * CryptoKey)
}.

(** [unseal]: [{[envelope.kid]: senderKey}] is an object literal with a
    computed key, which defines an own property (also for ["__proto__"]). *)
Definition unseal (CTX_CONSTANT_STRING : string) (self : Unsealer)
    (envelope : KeySealedEnvelope) : M bytes :=
  match obj_lookup (senderKeys self) (kid envelope) with   (* this.senderKeys.get(envelope.kid) *)
  | None => throw (Error "Unknown sender key")
  | Some senderKey =>
      unsealCore CTX_CONSTANT_STRING envelope (privateKey self) (privateKid self)
        [(kid envelope, senderKey)]
  end.

End Unsealer.
End Unsealer.

(** ** The envelope format without commitment

    The second [sealCore] of [sealer/helpers.ts] and the unsealing helpers of
    the other [unsealer] copy: their envelope ([types/envelope.ts]) has no
    [ctx], the signed object is [{cek, payload}], and the unsealing side
    decodes base64 with Node's [Buffer.from(s, "base64")]. *)
Module Legacy.
Section Legacy.
Context {P : Platform}.

Record KeySealedEnvelope := mkEnvelope {
  kid : string;
  cek : JsObj string;
  payload : string;
  signature : string
}.

(** The object [{cek, payload}] given to [canonicalize]. *)
Definition envelope_json (cek : JsObj string) (payload : string) : json :=
  JObject [("cek", JObject (map (fun kv => (fst kv, JString (snd kv))) (obj_entries cek)));
           ("payload", JString payload)]%string.

Definition sealCore (payload : Plaintext) (senderKey : CryptoKey) (senderKid : string)
    (recipientKeys : JsObj CryptoKey) : M KeySealedEnvelope :=
  if Nat.eqb (length (obj_keys recipientKeys)) 0 then throw (Error "No recipients specified")
  else
  let isRSASender := is_rsa_sender senderKey in
  let isECSender := is_ec_sender senderKey in
  if existsb (fun recipientKey =>
                (isRSASender && is_ec_recipient recipientKey)
                || (isECSender && is_rsa_recipient recipientKey))
             (obj_values recipientKeys)
  then throw (Error "Mixed key types not supported")
  else
  cek <- generateCEK ;;
  encryptedPayload <- encryptPayload payload cek ;;
  encryptedCEKs <- encrypt_ceks cek (obj_entries recipientKeys) [] ;;
  let payload64 := base64 encryptedPayload in
  signature <- signEnvelope (envelope_json encryptedCEKs payload64) senderKey ;;
  ret {| kid := senderKid; cek := encryptedCEKs; payload := payload64;
         signature := signature |}.

(** Node's [Buffer.from(s, "base64")] on a string: an external decoder, total
    (it skips characters outside the alphabet instead of throwing). *)
Variable buffer_from_base64 : string -> bytes.

Definition verifyEnvelope (data : json) (signature : string) (senderPublicKey : CryptoKey)
    : M bool :=
  let message := text_encode (canonicalize data) in
  let signatureBytes := buffer_from_base64 signature in
  if String.eqb (algorithm_name senderPublicKey) "RSA-PSS" then
    verifyEnvelopeWithRSA message signatureBytes senderPublicKey
  else if String.eqb (algorithm_name senderPublicKey) "ECDSA" then
    verifyEnvelopeWithEC message signatureBytes senderPublicKey
  else throw (Error "Unsupported key type").

(** [Buffer.from(v, "base64")] applied to what [obj[k]] returns: a value that
    is not a string (a member of [Object.prototype]) makes it throw [TypeError]. *)
Definition buffer_of_val (v : JsVal string) : result bytes :=
  match v with
  | JsOwn s => Ok (buffer_from_base64 s)
  | _ => Err TypeError
  end.

Definition decryptCEK (encryptedCEK : JsVal string) (recipientKey : CryptoKey) : M CryptoKey :=
  encryptedBytes <- lift (buffer_of_val encryptedCEK) ;;
  if String.eqb (algorithm_name recipientKey) "RSA-OAEP" then
    decryptCEKWithRSA encryptedBytes recipientKey
  else if String.eqb (algorithm_name recipientKey) "ECDH" then
    let ephemeralKeyBytes := subarray encryptedBytes 0%Z (Some 65%Z) in
    let encryptedKeyBytes := subarray encryptedBytes 65%Z None in
    match namedCurve recipientKey with
    | Some c =>
        ephemeralKey <- subtle_importKey_raw_ecdh c ephemeralKeyBytes ;;
        decryptCEKWithECDH encryptedKeyBytes recipientKey ephemeralKey
    | None => throw TypeError
    end
  else throw (Error "Unsupported key type").

Definition decryptPayload (encryptedPayload : string) (cek : CryptoKey) : M bytes :=
  let encryptedBytes := buffer_from_base64 encryptedPayload in
  let iv := subarray encryptedBytes 0%Z (Some 12%Z) in
  let ciphertext := subarray encryptedBytes 12%Z None in
  decrypted <- subtle_decrypt_aes_gcm cek iv ciphertext ;;
  ret decrypted.

(** [!v] for what [obj[k]] returns: [undefined] and the empty string are
    falsy; a member of [Object.prototype] is a function, which is truthy. *)
Definition falsy (v : JsVal string) : bool :=
  match v with
  | JsUndefined => true
  | JsOwn s => String.eqb s ""
  | JsInherited => false
  end.

(** [unsealCore]: a sender id naming a member of [Object.prototype] passes
    the [!senderPublicKey] test; [verifyEnvelope] then fails reading
    [senderPublicKey.algorithm.name]. *)
Definition unsealCore (envelope : KeySealedEnvelope) (recipientKey : CryptoKey)
    (recipientKid : string) (senderKeys : JsObj CryptoKey) : M bytes :=
  match obj_get senderKeys (kid envelope) with
  | JsUndefined => throw (Error "Unknown sender key")
  | JsInherited => throw TypeError
  | JsOwn senderPublicKey =>
      let envelopeData := envelope_json (cek envelope) (payload envelope) in
      isValid <- verifyEnvelope envelopeData (signature envelope) senderPublicKey ;;
      if negb isValid then throw (Error "Invalid envelope signature")
      else
      let encryptedCEK := obj_get (cek envelope) recipientKid in
      if falsy encryptedCEK then throw (Error "No CEK found for recipient")
      else
      cek <- decryptCEK encryptedCEK recipientKey ;;
      decryptPayload (payload envelope) cek
  end.

End Legacy.
End Legacy.


(** ** What the proofs assume of the primitives *)
Class PlatformLaws (P : Platform) : Prop := {
  aes_gcm_length : forall k iv pt, length (aes_gcm_encrypt k iv pt) = length pt + 16;
  aes_gcm_roundtrip : forall k iv pt, aes_gcm_decrypt k iv (aes_gcm_encrypt k iv pt) = Some pt;
  ecdh_agree : forall c a b, ecdh_secret c a (ec_public c b) = ecdh_secret c b (ec_public c a);
  ecdh_length : forall c a q, length (ecdh_secret c a q) = coord_len c;
  (* an uncompressed point: 0x04, then both coordinates *)
  ec_export_length : forall c k, length (ec_export_raw c k) = 1 + 2 * coord_len c;
  ec_import_export : forall c k,
    ec_import_raw c (ec_export_raw c (ec_public c k)) = Some (ec_public c k);
  (* a raw EC public key is a compressed or an uncompressed point *)
  ec_import_length : forall c bs k, ec_import_raw c bs = Some k ->
    length bs = 1 + coord_len c \/ length bs = 1 + 2 * coord_len c
}.

(** What the round-trip proofs assume of key pairs: RSA-OAEP decryption with
    the private key undoes encryption under its public key, an RSA-OAEP
    ciphertext is longer than its message (it has the modulus length), and a
    signature made with a private key verifies under its public key. *)
Class KeyPairLaws (P : Platform) : Prop := {
  rsa_oaep_correct : forall d seed m c,
    rsa_oaep_encrypt (rsa_public d) seed m = Some c -> rsa_oaep_decrypt d c = Some m;
  rsa_oaep_expands : forall pk seed m c,
    rsa_oaep_encrypt pk seed m = Some c -> length m < length c;
  rsa_pss_correct : forall s salt m, rsa_pss_verify (rsa_public s) (rsa_pss_sign s salt m) m = true;
  ecdsa_correct : forall c s nonce m,
    ecdsa_verify c (ec_public c s) (ecdsa_sign c s nonce m) m = true
}.

(** ** A small concrete platform, to run the code on explicit inputs *)
Module Toy.

Definition digest (bs : bytes) : bytes :=
  map (fun i => byte_of_N (fold_left (fun acc b => (acc * 31 + Byte.to_N b + N.of_nat i) mod 256)
                                     bs 7))%N
      (seq 0 32).

Definition pad (w : nat) (k : bytes) : bytes := firstn w (k ++ repeat Byte.x00 w).

Definition sum_bytes (bs : bytes) : N := fold_left (fun acc b => acc + Byte.to_N b)%N bs 0%N.

Definition aes_encrypt (k iv pt : bytes) : bytes := pt ++ firstn 16 (digest (k ++ iv ++ pt)).

Definition aes_decrypt (k iv ct : bytes) : option bytes :=
  if Nat.ltb (length ct) 16 then None
  else
    let pt := firstn (length ct - 16) ct in
    if bytes_eqb (skipn (length ct - 16) ct) (firstn 16 (digest (k ++ iv ++ pt)))
    then Some pt else None.

Definition oaep_decrypt (sk c : bytes) : option bytes :=
  if Nat.leb 32 (length c) && bytes_eqb (firstn 32 c) (digest sk)
  then Some (skipn 32 c) else None.

Definition ec_pub (c : Curve) (d : bytes) : bytes := pad (2 * coord_len c) d.

Definition ec_import (c : Curve) (bs : bytes) : option bytes :=
  match bs with
  | b :: rest =>
      if Byte.eqb b Byte.x04 && Nat.eqb (length rest) (2 * coord_len c) then Some rest else None
  | [] => None
  end.

Definition quote : string := String (ascii_of_nat 34) EmptyString.

Fixpoint serialize (j : json) : string :=
  match j with
  | JString s => quote ++ s ++ quote
  | JObject fs =>
      "{" ++ (fix fields (fs : list (string * json)) : string :=
                match fs with
                | [] => ""
                | [(k, v)] => quote ++ k ++ quote ++ ":" ++ serialize v
                | (k, v) :: rest => quote ++ k ++ quote ++ ":" ++ serialize v ++ "," ++ fields rest
                end) fs ++ "}"
  end%string.

#[export] Instance toy_platform : Platform := {
  KeyMat := bytes;
  aes_gcm_encrypt := aes_encrypt;
  aes_gcm_decrypt := aes_decrypt;
  rsa_oaep_encrypt := fun pk seed m => Some (digest pk ++ m);
  rsa_oaep_decrypt := oaep_decrypt;
  rsa_pss_sign := fun sk salt m => digest (sk ++ m);
  rsa_pss_verify := fun pk sig m => bytes_eqb sig (digest (pk ++ m));
  ecdsa_sign := fun c sk nonce m => digest (ec_pub c sk ++ m);
  ecdsa_verify := fun c pk sig m => bytes_eqb sig (digest (pk ++ m));
  ec_generate := fun c seed => seed;
  ec_public := ec_pub;
  ec_export_raw := fun c k => Byte.x04 :: pad (2 * coord_len c) k;
  ec_import_raw := ec_import;
  ecdh_secret := fun c a q =>
    repeat (byte_of_N ((sum_bytes (pad (2 * coord_len c) a) + sum_bytes q) mod 256)) (coord_len c);
  rsa_public := fun sk => sk;
  sha256 := digest;
  canonicalize := serialize
}.

(** Sample inputs: a random source, key material and two sealed envelopes. *)
Definition st0 : St := mkSt (fun i => byte_of_N (N.of_nat (i * 7 mod 256))) 0 [].

Definition sk_send : bytes := repeat Byte.x11 4.
Definition sk_rcpt : bytes := repeat Byte.x22 4.
Definition sep0 : string := "KSE-CTX-v1".

Definition empty_env : KeySealedEnvelope := mkEnvelope "" [] "" "" "".

Definition env_of (r : result KeySealedEnvelope * St) : KeySealedEnvelope :=
  match fst r with Ok e => e | Err _ => empty_env end.

(** An RSA sender ([RSA-PSS]) and one [RSA-OAEP] recipient. *)
Definition rsa_recipients : JsObj CryptoKey := [("alice", RsaOaepKey sk_rcpt)]%string.
Definition rsa_sender_keys : JsObj CryptoKey := [("sender", RsaPssKey sk_send)]%string.
Definition rsa_seal : result KeySealedEnvelope * St :=
  sealCore sep0 (PText "hi") (RsaPssKey sk_send) "sender" rsa_recipients st0.
Definition rsa_env : KeySealedEnvelope := env_of rsa_seal.

(** An [ECDSA] sender and one [ECDH] recipient on the curve [c]. *)
Definition ec_recipients (c : Curve) : JsObj CryptoKey :=
  [("bob", EcdhKey c (ec_pub c sk_rcpt))]%string.
Definition ec_sender_keys (c : Curve) : JsObj CryptoKey :=
  [("sender", EcdsaKey c (ec_pub c sk_send))]%string.
Definition ec_seal (c : Curve) : result KeySealedEnvelope * St :=
  sealCore sep0 (PBytes [Byte.x01; Byte.x02; Byte.x03]) (EcdsaKey c sk_send) "sender"
    (ec_recipients c) st0.
Definition ec_env (c : Curve) : KeySealedEnvelope := env_of (ec_seal c).

(** The value of a successful run, or [d]. *)
Definition ok_or {A} (d : A) (r : result A) : A :=
  match r with Ok a => a | Err _ => d end.

(** The steps of unsealing [rsa_env] as the recipient ["alice"]. *)
Definition rsa_unseal : result bytes * St :=
  unsealCore sep0 rsa_env (RsaOaepKey sk_rcpt) "alice" rsa_sender_keys st0.
Definition rsa_verify : result bool * St :=
  verifyEnvelope (envelope_json (kid rsa_env) (cek rsa_env) (payload rsa_env))
    (signature rsa_env) (RsaPssKey sk_send) st0.

(** [s] with the character at index [i] xor-ed with [mask]: one byte of the
    base64 text flipped. *)
Definition flip_char (mask : byte) (c : ascii) : ascii :=
  ascii_of_N (N.lxor (N_of_ascii c) (Byte.to_N mask)).
Fixpoint flip_at (i : nat) (mask : byte) (s : string) : string :=
  match s, i with
  | EmptyString, _ => EmptyString
  | String c rest, 0 => String (flip_char mask c) rest
  | String c rest, S j => String c (flip_at j mask rest)
  end.

(** [rsa_env] with one byte of its [ctx] flipped. *)
Definition rsa_env_ctx (i : nat) (mask : byte) : KeySealedEnvelope :=
  mkEnvelope (kid rsa_env) (cek rsa_env) (payload rsa_env) (signature rsa_env)
    (flip_at i mask (ctx rsa_env)).

(** A P-256 [ECDH] wrap of a 32-byte CEK for the recipient key [sk_rcpt]. *)
Definition cek_raw : bytes := repeat Byte.x05 32.
Definition p256_wrap : result bytes * St :=
  encryptCEK (AesKey cek_raw) (EcdhKey P_256 (ec_pub P_256 sk_rcpt)) st0.

(** A sealer whose known recipients are ["__proto__"] and ["alice"]. *)
Definition proto_sealer : Sealer.Sealer :=
  Sealer.mkSealer (RsaPssKey sk_send) "sender"
    [("__proto__", RsaOaepKey sk_rcpt); ("alice", RsaOaepKey sk_rcpt)]%string.

(** A total base64 decoder for the samples of the [Buffer]-based code. *)
Definition buffer_from (s : string) : bytes := ok_or [] (base64ToUint8Array s).

(** A sealer and an unsealer with the RSA keys above. *)
Definition rsa_sealer : Sealer.Sealer :=
  Sealer.mkSealer (RsaPssKey sk_send) "sender" rsa_recipients.
Definition rsa_unsealer : Unsealer.Unsealer :=
  Unsealer.mkUnsealer (RsaOaepKey sk_rcpt) "alice" rsa_sender_keys.
Definition sealer_seal : result KeySealedEnvelope * St :=
  Sealer.seal sep0 rsa_sealer (PText "hi") ["alice"]%string st0.
Definition sealer_env : KeySealedEnvelope := env_of sealer_seal.

(** A payload encrypted under the CEK [cek_raw]. *)
Definition payload_run : result bytes * St := encryptPayload (PText "hi") (AesKey cek_raw) st0.

(** An envelope of the format without commitment, for the recipient ["alice"]. *)
Definition legacy_seal : result Legacy.KeySealedEnvelope * St :=
  Legacy.sealCore (PText "hi") (RsaPssKey sk_send) "sender" rsa_recipients st0.
Definition legacy_env : Legacy.KeySealedEnvelope :=
  match fst legacy_seal with Ok e => e | Err _ => Legacy.mkEnvelope "" [] "" "" end.
Definition legacy_verify : result bool * St :=
  Legacy.verifyEnvelope buffer_from
    (Legacy.envelope_json (Legacy.cek legacy_env) (Legacy.payload legacy_env))
    (Legacy.signature legacy_env) (RsaPssKey sk_send) st0.
(** The sender key registered under two ids. *)
Definition legacy_sender_keys2 : JsObj CryptoKey :=
  [("sender", RsaPssKey sk_send); ("sender-old", RsaPssKey sk_send)]%string.


(** [proto_sealer] sealing for ["__proto__"] and ["alice"]. *)
Definition proto_seal : result KeySealedEnvelope * St :=
  Sealer.seal sep0 proto_sealer (PText "hi") ["__proto__"; "alice"]%string st0.
Definition proto_env : KeySealedEnvelope := env_of proto_seal.

End Toy.


(** ** Notions the properties are stated with *)

(** The errors [seal] raises before any cryptography. *)
Definition preflight_error (e : JsError) : Prop :=
  e = Error "No recipients specified" \/ e = Error "Mixed key types not supported"
  \/ exists k, e = Error ("Unknown recipient: " ++ k).

(** The bytes [verifyEnvelope] and [signEnvelope] sign: the UTF-8 encoding of
    the canonical [{kid, cek, payload}]. *)
Definition signing_input {P : Platform} (kid : string) (cek : JsObj string) (payload : string)
    : bytes :=
  text_encode (canonicalize (envelope_json kid cek payload)).

(** The steps of [unsealCore] the provider calls belong to: 1 signature
    verification, 2 CEK unwrap, 3 commitment, 4 payload decryption. *)
Definition unseal_phase (e : event) : nat :=
  match e with
  | EvVerify _ _ => 1
  | EvDecrypt alg => if String.eqb alg "AES-GCM" then 4 else 2
  | EvImportKey _ | EvDeriveKey | EvUnwrapKey => 2
  | EvDigest _ => 3
  | _ => 0
  end.

Fixpoint nondecreasing (l : list nat) : bool :=
  match l with
  | x :: (y :: _) as rest => Nat.leb x y && nondecreasing rest
  | _ => true
  end.

(** The recomputed commitment of the envelope's payload equals its [ctx]. *)
Definition commitment_ok {P : Platform} (CTX_CONSTANT_STRING : string)
    (envelope : KeySealedEnvelope) : Prop :=
  exists encrypted ctxInput,
    base64ToUint8Array (payload envelope) = Ok encrypted
    /\ build_ctx_input (text_encode CTX_CONSTANT_STRING) encrypted = Ok ctxInput
    /\ base64ToUint8Array (ctx envelope) = Ok (sha256 ctxInput).

(** The platform's verdict on [sig] as a signature of [msg] under the public
    key [k], for the two signature algorithms [verifyEnvelope] dispatches to. *)
Definition verify_accepts {P : Platform} (k : CryptoKey) (sig msg : bytes) : bool :=
  match k with
  | RsaPssKey m => rsa_pss_verify m sig msg
  | EcdsaKey c m => ecdsa_verify c m sig msg
  | _ => false
  end.

(** Length of the base64 text of a last group of [m] bytes, padding excluded. *)
Definition b64_tail_len (m : nat) : nat :=
  match m with 0 => 0 | 1 => 2 | _ => 3 end.

(** The provider calls a computation adds to the trace all satisfy [Q]. *)
Definition trace_ext (Q : event -> Prop) (st st' : St) : Prop :=
  exists evs, trace st' = trace st ++ evs /\ Forall Q evs.

(** Every provider call of [m] satisfies [Q]. *)
Definition Emits {A} (Q : event -> Prop) (m : M A) : Prop :=
  forall st, trace_ext Q st (snd (m st)).

(** [m] never throws one of the pre-flight errors. *)
Definition NoPreflight {A} (m : M A) : Prop :=
  forall st e st', m st = (Err e, st') -> ~ preflight_error e.

(** A result that can only fail with [RangeError]. *)
Definition only_range {A} (r : result A) : Prop := forall e, r = Err e -> e = RangeError.

(** A signing key and the public key that verifies its signatures. *)
Inductive signing_pair {P : Platform} : CryptoKey -> CryptoKey -> Prop :=
  | rsa_pss_pair s : signing_pair (RsaPssKey s) (RsaPssKey (rsa_public s))
  | ecdsa_pair c s : signing_pair (EcdsaKey c s) (EcdsaKey c (ec_public c s)).

(** A recipient's public key and the private key that unwraps CEKs for it, for
    the key kinds [decryptCEK] handles: RSA-OAEP, and ECDH on P-256. *)
Inductive recipient_pair {P : Platform} : CryptoKey -> CryptoKey -> Prop :=
  | rsa_oaep_pair d : recipient_pair (RsaOaepKey (rsa_public d)) (RsaOaepKey d)
  | ecdh_p256_pair b : recipient_pair (EcdhKey P_256 (ec_public P_256 b)) (EcdhKey P_256 b).

(** The errors a computation can end with satisfy [Q]. *)
Definition raises_only (Q : JsError -> Prop) {A} (m : M A) : Prop :=
  forall st e st', m st = (Err e, st') -> Q e.

Definition not_no_cek (e : JsError) : Prop := e <> Error "No CEK found for recipient".

(** * Properties *)

(** ** Base64 round trip *)

Lemma byte_of_N_to_N (b : byte) : byte_of_N (Byte.to_N b) = b.
Proof. unfold byte_of_N. now rewrite Byte.of_to_N. Qed.

Lemma b64_value_digit (v : N) : (v < 64)%N -> b64_value (b64_digit v) = Some v.
Proof.
  intros Hv. rewrite <- (N2Nat.id v). assert (Hn : (N.to_nat v < 64)%nat) by lia.
  generalize (N.to_nat v) Hn. clear. intros n Hn.
  do 64 (destruct n as [|n]; [reflexivity|]). lia.
Qed.

Lemma b64_digit_not_pad (v : N) : (v < 64)%N -> b64_digit v <> "="%char.
Proof.
  intros Hv Heq. pose proof (b64_value_digit v Hv) as H. rewrite Heq in H.
  discriminate.
Qed.

Lemma div_add_small (x y k : N) : (0 < k)%N -> (y < k)%N -> ((x * k + y) / k = x)%N.
Proof.
  intros Hk Hy. rewrite N.div_add_l by lia. rewrite N.div_small by lia. lia.
Qed.

Lemma byte_facts (b : byte) :
  let n := Byte.to_N b in
  (n < 256 /\ n mod 4 < 4 /\ n mod 16 < 16 /\ n mod 64 < 64 /\
   n / 4 < 64 /\ n / 16 < 16 /\ n / 64 < 4)%N.
Proof.
  intros n. pose proof (Byte.to_N_bounded b).
  repeat split; try apply N.mod_upper_bound; try lia;
    apply N.Div0.div_lt_upper_bound; lia.
Qed.

Ltac byte_bounds :=
  repeat match goal with
  | b : byte |- _ =>
      let H := fresh "Hb" in pose proof (byte_facts b) as H; simpl in H;
      revert H; generalize dependent b
  end; intros.

Lemma b64_sextets_bound (bs : bytes) : Forall (fun v => (v < 64)%N) (b64_sextets bs).
Proof.
  induction bs as [bs IH] using (Wf_nat.induction_ltof1 _ (@length _)).
  destruct bs as [|x [|y [|z rest]]]; simpl.
  - constructor.
  - byte_bounds. repeat constructor; lia.
  - byte_bounds. repeat constructor; lia.
  - byte_bounds. repeat constructor; try lia.
    apply IH. unfold ltof. simpl. lia.
Qed.

Lemma mod_add_small (x y k : N) : (0 < k)%N -> (y < k)%N -> ((x * k + y) mod k = y)%N.
Proof.
  intros Hk Hy. rewrite N.add_comm, N.Div0.mod_add. now apply N.mod_small.
Qed.

Lemma to_N_lt (b : byte) : (Byte.to_N b < 256)%N.
Proof. pose proof (Byte.to_N_bounded b). lia. Qed.

Lemma b64_group1 (a b : N) : (b < 256)%N ->
  (a / 4 * 4 + (a mod 4 * 16 + b / 16) / 16 = a)%N.
Proof.
  intros Hb. rewrite div_add_small.
  - pose proof (N.div_mod a 4). pose proof (N.mod_upper_bound a 4). lia.
  - lia.
  - apply N.Div0.div_lt_upper_bound. lia.
Qed.

Lemma b64_group1' (a : N) : (a / 4 * 4 + a mod 4 * 16 / 16 = a)%N.
Proof.
  rewrite <- (N.add_0_r (a mod 4 * 16)). rewrite div_add_small by lia.
  pose proof (N.div_mod a 4). lia.
Qed.

Lemma b64_group2 (a b c : N) : (b < 256)%N -> (c < 256)%N ->
  ((a mod 4 * 16 + b / 16) mod 16 * 16 + (b mod 16 * 4 + c / 64) / 4 = b)%N.
Proof.
  intros Hb Hc.
  assert (H16 : (b / 16 < 16)%N) by (apply N.Div0.div_lt_upper_bound; lia).
  assert (H64 : (c / 64 < 4)%N) by (apply N.Div0.div_lt_upper_bound; lia).
  rewrite mod_add_small, div_add_small by lia.
  pose proof (N.div_mod b 16). lia.
Qed.

Lemma b64_group2' (a b : N) : (b < 256)%N ->
  ((a mod 4 * 16 + b / 16) mod 16 * 16 + b mod 16 * 4 / 4 = b)%N.
Proof.
  intros Hb. rewrite <- (N.add_0_r (b mod 16 * 4)).
  pose proof (b64_group2 a b 0 Hb ltac:(lia)) as H. exact H.
Qed.

Lemma b64_group3 (b c : N) : (c < 256)%N ->
  ((b mod 16 * 4 + c / 64) mod 4 * 64 + c mod 64 = c)%N.
Proof.
  intros Hc.
  assert (H64 : (c / 64 < 4)%N) by (apply N.Div0.div_lt_upper_bound; lia).
  rewrite mod_add_small by lia. pose proof (N.div_mod c 64). lia.
Qed.

Lemma sextets_to_bytes_sextets (bs : bytes) : sextets_to_bytes (b64_sextets bs) = bs.
Proof.
  induction bs as [bs IH] using (Wf_nat.induction_ltof1 _ (@length _)).
  destruct bs as [|x [|y [|z rest]]]; simpl.
  - reflexivity.
  - now rewrite b64_group1', byte_of_N_to_N.
  - rewrite b64_group1, b64_group2' by apply to_N_lt.
    now rewrite !byte_of_N_to_N.
  - rewrite b64_group1, b64_group2, b64_group3 by apply to_N_lt.
    rewrite !byte_of_N_to_N, IH; [reflexivity|]. unfold ltof. simpl. lia.
Qed.

Lemma b64_sextets_length (bs : bytes) :
  length (b64_sextets bs) = 4 * (length bs / 3) + b64_tail_len (length bs mod 3).
Proof.
  induction bs as [bs IH] using (Wf_nat.induction_ltof1 _ (@length _)).
  destruct bs as [|x [|y [|z rest]]]; try reflexivity.
  cbn [b64_sextets length]. rewrite IH by (unfold ltof; simpl; lia).
  replace (S (S (S (length rest)))) with (length rest + 1 * 3) by lia.
  rewrite Nat.div_add, Nat.Div0.mod_add by lia. lia.
Qed.

Lemma b64_values_digits (vs : list N) :
  Forall (fun v => (v < 64)%N) vs -> b64_values (map b64_digit vs) = Some vs.
Proof.
  induction 1 as [|v vs Hv _ IH]; [reflexivity|].
  simpl. now rewrite b64_value_digit, IH.
Qed.

Lemma digit_neq_pad (v : N) : (v < 64)%N -> (b64_digit v =? "=")%char = false.
Proof.
  intros Hv. destruct (Ascii.eqb_spec (b64_digit v) "="%char); [|reflexivity].
  exfalso. now apply (b64_digit_not_pad v).
Qed.

Lemma strip_padding_digits (vs : list N) (pad : list ascii) :
  Forall (fun v => (v < 64)%N) vs ->
  (pad = [] \/ (pad = ["="%char] /\ vs <> []) \/ (pad = ["="%char; "="%char] /\ vs <> [])) ->
  (length vs + length pad) mod 4 = 0 ->
  strip_padding (map b64_digit vs ++ pad) = map b64_digit vs.
Proof.
  intros Hall Hpad Hlen. unfold strip_padding.
  rewrite length_app, length_map, Hlen. cbn [Nat.eqb].
  assert (Hrev : Forall (fun v => (v < 64)%N) (rev vs)) by now apply Forall_rev.
  destruct Hpad as [-> | [[-> Hne] | [-> Hne]]].
  - rewrite app_nil_r, <- map_rev.
    destruct (rev vs) as [|v1 [|v2 r]]; try reflexivity;
      inversion Hrev; subst; simpl; now rewrite digit_neq_pad.
  - rewrite rev_app_distr, <- map_rev. cbn [rev app].
    destruct (rev vs) as [|v1 r] eqn:E.
    + exfalso. apply Hne. now rewrite <- (rev_involutive vs), E.
    + inversion Hrev; subst. cbn [map]. rewrite digit_neq_pad by assumption.
      rewrite Ascii.eqb_refl. cbn [andb].
      rewrite <- (rev_involutive vs), E. cbn [rev]. now rewrite map_app, map_rev.
  - rewrite rev_app_distr, <- map_rev. cbn [rev app].
    rewrite Ascii.eqb_refl. cbn [andb]. rewrite map_rev, rev_involutive. reflexivity.
Qed.

Lemma base64_roundtrip (bs : bytes) : base64ToUint8Array (base64 bs) = Ok bs.
Proof.
  unfold base64ToUint8Array, base64. rewrite list_ascii_of_string_of_list_ascii.
  pose proof (b64_sextets_length bs) as Hl.
  pose proof (Nat.div_mod (length bs) 3 ltac:(lia)) as Hd.
  pose proof (Nat.mod_upper_bound (length bs) 3 ltac:(lia)) as Hm.
  assert (Hs : b64_sextets bs <> [] \/ length bs mod 3 = 0).
  { destruct (b64_sextets bs) eqn:E; [right|left; discriminate].
    cbn [length] in Hl.
    destruct (length bs mod 3) as [|[|[|]]]; cbn [b64_tail_len] in Hl; lia. }
  rewrite strip_padding_digits.
  - rewrite length_map, Hl.
    replace (4 * (length bs / 3) + b64_tail_len (length bs mod 3))
      with (b64_tail_len (length bs mod 3) + (length bs / 3) * 4) by lia.
    rewrite Nat.Div0.mod_add.
    destruct (length bs mod 3) as [|[|[|]]]; try lia; cbn [b64_tail_len Nat.eqb Nat.modulo];
      rewrite b64_values_digits by apply b64_sextets_bound;
      now rewrite sextets_to_bytes_sextets.
  - apply b64_sextets_bound.
  - unfold b64_padding. destruct (length bs mod 3) as [|[|[|]]] eqn:E; try lia;
      [left; reflexivity | right; right | right; left];
      (split; [reflexivity|]); destruct Hs; lia || assumption.
  - unfold b64_padding. rewrite Hl. set (q := length bs / 3).
    apply Nat.Div0.mod_divides.
    destruct (length bs mod 3) as [|[|[|]]]; try lia; cbn [b64_tail_len length];
      first [exists q; lia | exists (S q); lia].
Qed.

(** ** The monad: traces only grow *)

Section Monad.
Context {P : Platform}.

Lemma trace_ext_refl Q st : trace_ext Q st st.
Proof. exists []. split; [now rewrite app_nil_r | constructor]. Qed.

Lemma trace_ext_trans Q st1 st2 st3 :
  trace_ext Q st1 st2 -> trace_ext Q st2 st3 -> trace_ext Q st1 st3.
Proof.
  intros [e1 [H1 F1]] [e2 [H2 F2]]. exists (e1 ++ e2). split.
  - now rewrite H2, H1, app_assoc.
  - now apply Forall_app.
Qed.

Lemma Emits_bind {A B} Q (m : M A) (k : A -> M B) :
  Emits Q m -> (forall a, Emits Q (k a)) -> Emits Q (bind m k).
Proof.
  intros Hm Hk st. specialize (Hm st). unfold bind.
  destruct (m st) as [[a|e] st1]; simpl in *; [|exact Hm].
  eapply trace_ext_trans; [exact Hm | apply Hk].
Qed.

Lemma Emits_ret {A} Q (a : A) : Emits Q (ret a).
Proof. intros st. apply trace_ext_refl. Qed.

Lemma Emits_throw {A} Q e : Emits Q (@throw A e).
Proof. intros st. apply trace_ext_refl. Qed.

Lemma Emits_lift {A} Q (r : result A) : Emits Q (lift r).
Proof. intros st. apply trace_ext_refl. Qed.

Lemma Emits_lift_opt {A} Q (o : option A) e : Emits Q (lift_opt o e).
Proof. intros st. unfold lift_opt. destruct o; apply trace_ext_refl. Qed.

Lemma Emits_draw Q n : Emits Q (draw n).
Proof. intros st. exists []. split; [simpl; now rewrite app_nil_r | constructor]. Qed.

Lemma Emits_emit (Q : event -> Prop) ev : Q ev -> Emits Q (emit ev).
Proof. intros HQ st. exists [ev]. split; [reflexivity | now constructor]. Qed.

Lemma NoPreflight_bind {A B} (m : M A) (k : A -> M B) :
  NoPreflight m -> (forall a, NoPreflight (k a)) -> NoPreflight (bind m k).
Proof.
  intros Hm Hk st e st'. unfold bind.
  destruct (m st) as [[a|e'] st1] eqn:E.
  - apply Hk.
  - intros Heq. inversion Heq; subst. eapply Hm. exact E.
Qed.

Lemma NoPreflight_ret {A} (a : A) : NoPreflight (ret a).
Proof. intros st e st' H. discriminate. Qed.

Lemma NoPreflight_throw {A} e : ~ preflight_error e -> NoPreflight (@throw A e).
Proof. intros Hn st e' st' H. inversion H; subst. exact Hn. Qed.

Lemma NoPreflight_lift {A} (r : result A) :
  (forall e, r = Err e -> ~ preflight_error e) -> NoPreflight (lift r).
Proof. intros Hr st e st' H. inversion H; subst. now apply Hr. Qed.

Lemma NoPreflight_lift_opt {A} (o : option A) e :
  ~ preflight_error e -> NoPreflight (lift_opt o e).
Proof.
  intros Hn st e' st' H. unfold lift_opt in H. destruct o; inversion H; subst. exact Hn.
Qed.

Lemma NoPreflight_draw n : NoPreflight (draw n).
Proof. intros st e st' H. discriminate. Qed.

Lemma NoPreflight_emit ev : NoPreflight (emit ev).
Proof. intros st e st' H. discriminate. Qed.

End Monad.

(** ** Errors of the array operations and of the cryptographic steps *)

Lemma only_range_rbind {A B} (r : result A) (f : A -> result B) :
  only_range r -> (forall a, only_range (f a)) -> only_range (rbind r f).
Proof. intros Hr Hf e. destruct r as [a|e']; simpl; [apply Hf | intros H; inversion H; subst; now apply Hr]. Qed.

Lemma only_range_u8_new n : only_range (u8_new n).
Proof. intros e. unfold u8_new. destruct (n <? 0)%Z; congruence. Qed.

Lemma only_range_u8_set t s o : only_range (u8_set t s o).
Proof.
  intros e. unfold u8_set. destruct (o <? 0)%Z; [congruence|].
  destruct (_ <? _)%Z; congruence.
Qed.

Lemma only_range_u8_concat a b : only_range (u8_concat a b).
Proof.
  unfold u8_concat. apply only_range_rbind; [apply only_range_u8_new|intros r].
  apply only_range_rbind; [apply only_range_u8_set|intros r'; apply only_range_u8_set].
Qed.

Lemma only_range_build_ctx_input sep enc : only_range (build_ctx_input sep enc).
Proof.
  unfold build_ctx_input.
  repeat first [apply only_range_rbind | apply only_range_u8_new | apply only_range_u8_set
               | intro].
Qed.

Lemma not_preflight_range : ~ preflight_error RangeError.
Proof. intros [H|[H|[k H]]]; discriminate. Qed.

Lemma NoPreflight_lift_range {A} (r : result A) : only_range r -> NoPreflight (lift r).
Proof.
  intros Hr. apply NoPreflight_lift. intros e He. rewrite (Hr e He). apply not_preflight_range.
Qed.

Ltac not_preflight := let H := fresh in
  unfold preflight_error; intros [H|[H|[? H]]]; discriminate H.

Ltac no_preflight :=
  repeat match goal with
  | |- NoPreflight (bind _ _) => apply NoPreflight_bind; [|intro]
  | |- NoPreflight (ret _) => apply NoPreflight_ret
  | |- NoPreflight (throw _) => apply NoPreflight_throw; not_preflight
  | |- NoPreflight (lift_opt _ _) => apply NoPreflight_lift_opt; not_preflight
  | |- NoPreflight (emit _) => apply NoPreflight_emit
  | |- NoPreflight (draw _) => apply NoPreflight_draw
  | |- NoPreflight (lift (u8_concat _ _)) => apply NoPreflight_lift_range, only_range_u8_concat
  | |- NoPreflight (lift (build_ctx_input _ _)) =>
      apply NoPreflight_lift_range, only_range_build_ctx_input
  | |- NoPreflight (match ?x with _ => _ end) => destruct x
  | |- NoPreflight (if ?b then _ else _) => destruct b
  end.

Section Preflight.
Context {P : Platform}.

Lemma NoPreflight_generateCEK : NoPreflight generateCEK.
Proof. unfold generateCEK, subtle_generateKey_aes. no_preflight. Qed.

Lemma NoPreflight_encryptPayload pl cek : NoPreflight (encryptPayload pl cek).
Proof.
  unfold encryptPayload, getRandomValues, subtle_encrypt_aes_gcm. no_preflight.
Qed.

Lemma NoPreflight_encryptCEK cek rk : NoPreflight (encryptCEK cek rk).
Proof.
  unfold encryptCEK, encryptCEKWithRSA, encryptCEKWithECDH, subtle_exportKey_raw,
    subtle_encrypt_rsa_oaep, subtle_generateKey_ecdh, subtle_deriveKey_ecdh,
    getRandomValues, subtle_wrapKey_raw_aes_gcm.
  no_preflight.
Qed.

Lemma NoPreflight_encrypt_ceks cek entries acc : NoPreflight (encrypt_ceks cek entries acc).
Proof.
  revert acc. induction entries as [|[k rk] rest IH]; intros acc; simpl.
  - apply NoPreflight_ret.
  - apply NoPreflight_bind; [apply NoPreflight_encryptCEK | intros; apply IH].
Qed.

Lemma NoPreflight_signEnvelope data key : NoPreflight (signEnvelope data key).
Proof.
  unfold signEnvelope, signEnvelopeWithRSA, signEnvelopeWithEC, subtle_sign_rsa_pss,
    subtle_sign_ecdsa.
  no_preflight.
Qed.

End Preflight.

Section Preflight2.
Context {P : Platform}.

Lemma sealCore_preflight_state sep pl sk skid rks st e st' :
  sealCore sep pl sk skid rks st = (Err e, st') -> preflight_error e -> st' = st.
Proof.
  unfold sealCore.
  destruct (Nat.eqb _ 0); [intros H _; now inversion H|].
  destruct (existsb _ _); [intros H _; now inversion H|].
  intros H Hp. exfalso. revert H Hp. apply NoPreflight_bind; [apply NoPreflight_generateCEK|].
  intros cek. apply NoPreflight_bind; [apply NoPreflight_encryptPayload|].
  intros ep. apply NoPreflight_bind; [apply NoPreflight_encrypt_ceks|].
  intros ceks. apply NoPreflight_bind; [apply NoPreflight_signEnvelope|].
  intros sig. unfold subtle_digest_sha256. no_preflight.
Qed.

Lemma collect_recipients_unknown known kids acc k :
  In k kids -> obj_lookup known k = None ->
  exists e, Sealer.collect_recipients known kids acc = Err e.
Proof.
  revert acc. induction kids as [|k0 rest IH]; intros acc Hin Hk; [destruct Hin|].
  simpl. destruct (obj_lookup known k0) as [key|] eqn:E.
  - destruct Hin as [->|Hin]; [congruence|].
    destruct (Sealer.keymap_set acc k0 key) as [acc'|e]; simpl; [|eauto].
    now apply IH.
  - eauto.
Qed.

End Preflight2.

Section ClaimPreflight.
Context {P : Platform}.

(** C7: the pre-flight failures of [seal] ([No recipients specified],
    [Unknown recipient: ...], [Mixed key types not supported]) leave the
    state as it was: no provider call has been made (the trace is unchanged)
    and no random byte has been drawn, so no CEK was generated and nothing
    was encrypted, wrapped or signed.  An empty list of ids fails with
    [No recipients specified], and a list naming an unknown id fails before
    any provider call. *)
Theorem seal_preflight_before_crypto (CTX_CONSTANT_STRING : string) (self : Sealer.Sealer)
    (pl : Plaintext) (recipientKids : list string) (st : St) :
  (forall e st', Sealer.seal CTX_CONSTANT_STRING self pl recipientKids st = (Err e, st') ->
     preflight_error e -> st' = st)
  /\ (recipientKids = [] ->
      Sealer.seal CTX_CONSTANT_STRING self pl recipientKids st
      = (Err (Error "No recipients specified"), st))
  /\ (forall k, In k recipientKids -> obj_lookup (Sealer.recipientKeys self) k = None ->
      exists e, Sealer.seal CTX_CONSTANT_STRING self pl recipientKids st = (Err e, st)).
Proof.
  unfold Sealer.seal, bind, lift. split; [|split].
  - intros e st'.
    destruct (Sealer.collect_recipients _ _ _) as [m|e'].
    + apply sealCore_preflight_state.
    + intros H _. now inversion H.
  - intros ->. reflexivity.
  - intros k Hin Hk.
    destruct (collect_recipients_unknown (Sealer.recipientKeys self) recipientKids
                (Sealer.mkKeyMapObj [] false) k Hin Hk) as [e ->].
    eauto.
Qed.

End ClaimPreflight.

(** ** The array idioms compute concatenations *)

Lemma u8_set_ok (t src : bytes) (o : nat) :
  o + length src <= length t ->
  u8_set t src (Z.of_nat o) = Ok (firstn o t ++ src ++ skipn (o + length src) t).
Proof.
  intros Hle. unfold u8_set.
  destruct (Z.of_nat o <? 0)%Z eqn:E1; [lia|].
  destruct (Z.of_nat (length t) <? Z.of_nat (length src) + Z.of_nat o)%Z eqn:E2; [lia|].
  now rewrite Nat2Z.id.
Qed.

Lemma u8_concat_ok (a b : bytes) : u8_concat a b = Ok (a ++ b).
Proof.
  unfold u8_concat, u8_new.
  destruct (Z.of_nat (length a) + Z.of_nat (length b) <? 0)%Z eqn:E.
  { apply Z.ltb_lt in E. lia. }
  simpl.
  rewrite <- Nat2Z.inj_add, Nat2Z.id.
  set (r := repeat Byte.x00 (length a + length b)).
  assert (Hr : length r = length a + length b) by apply repeat_length.
  change 0%Z with (Z.of_nat 0).
  rewrite u8_set_ok by lia. simpl.
  set (x := skipn (length a) r).
  assert (Hx : length x = length b) by (unfold x; rewrite length_skipn; lia).
  rewrite u8_set_ok by (rewrite length_app; lia). simpl.
  rewrite firstn_app, firstn_all, Nat.sub_diag, firstn_O, app_nil_r.
  rewrite skipn_app, (skipn_all2 a) by lia.
  replace (length a + length b - length a) with (length b) by lia.
  rewrite (skipn_all2 x) by lia. now rewrite !app_nil_r.
Qed.

Lemma u8_set_split (x y src : bytes) (oz : Z) :
  oz = Z.of_nat (length x) -> length src <= length y ->
  u8_set (x ++ y) src oz = Ok (x ++ src ++ skipn (length src) y).
Proof.
  intros -> Hle. rewrite u8_set_ok by (rewrite length_app; lia).
  rewrite firstn_app, firstn_all, Nat.sub_diag, firstn_O, app_nil_r.
  rewrite skipn_app, skipn_all2 by lia. simpl.
  now replace (length x + length src - length x) with (length src) by lia.
Qed.

Lemma rel_index_nonneg (len r : Z) :
  (0 <= r <= len)%Z -> rel_index len r = r.
Proof.
  intros H. unfold rel_index. destruct (r <? 0)%Z eqn:E; lia.
Qed.

Lemma rel_index_neg (len r : Z) :
  (r < 0)%Z -> (0 <= len + r)%Z -> rel_index len r = (len + r)%Z.
Proof.
  intros H1 H2. unfold rel_index. destruct (r <? 0)%Z eqn:E; lia.
Qed.

Lemma subarray_ctx_parts (enc : bytes) :
  28 <= length enc ->
  subarray enc 0%Z (Some 12%Z) = firstn 12 enc
  /\ subarray enc (-16)%Z None = skipn (length enc - 16) enc
  /\ subarray enc 12%Z (Some (-16)%Z) = firstn (length enc - 28) (skipn 12 enc)
  /\ subarray enc 12%Z None = skipn 12 enc.
Proof.
  intros Hn. unfold subarray.
  rewrite (rel_index_nonneg _ 0) by lia.
  rewrite (rel_index_nonneg _ 12) by lia.
  rewrite (rel_index_neg _ (-16)) by lia.
  refine (conj _ (conj _ (conj _ _))).
  - replace (Z.to_nat (12 - 0)) with 12 by lia. reflexivity.
  - match goal with |- firstn (Z.to_nat ?a) (skipn (Z.to_nat ?b) _) = _ =>
      replace (Z.to_nat a) with 16 by lia; replace (Z.to_nat b) with (length enc - 16) by lia
    end.
    apply firstn_all2. rewrite length_skipn. lia.
  - match goal with |- firstn (Z.to_nat ?a) _ = _ =>
      replace (Z.to_nat a) with (length enc - 28) by lia end.
    reflexivity.
  - apply firstn_all2. rewrite length_skipn. lia.
Qed.

(** For a payload of at least 28 bytes the commitment input is the separator
    followed by the payload: [IV ‖ ciphertext ‖ tag], in order. *)
Lemma build_ctx_input_ok (sep enc : bytes) :
  28 <= length enc -> build_ctx_input sep enc = Ok (sep ++ enc).
Proof.
  intros Hn. destruct (subarray_ctx_parts enc Hn) as [Hiv [Htag [Hmid _]]].
  unfold build_ctx_input. rewrite Hiv, Htag, Hmid.
  set (iv := firstn 12 enc). set (tag := skipn (length enc - 16) enc).
  set (mid := firstn (length enc - 28) (skipn 12 enc)).
  assert (Liv : length iv = 12) by (unfold iv; rewrite length_firstn; lia).
  assert (Ltag : length tag = 16) by (unfold tag; rewrite length_skipn; lia).
  assert (Lmid : length mid = length enc - 28)
    by (unfold mid; rewrite length_firstn, length_skipn; lia).
  assert (Henc : enc = iv ++ mid ++ tag).
  { unfold iv, mid, tag.
    rewrite <- (firstn_skipn 12 enc) at 1. f_equal.
    rewrite <- (firstn_skipn (length enc - 28) (skipn 12 enc)) at 1. f_equal.
    rewrite skipn_skipn. f_equal. lia. }
  unfold u8_new.
  rewrite Liv, Ltag.
  destruct (Z.of_nat (length sep) + Z.of_nat 12 + (Z.of_nat (length enc) - 28)
            + Z.of_nat 16 <? 0)%Z eqn:E; [apply Z.ltb_lt in E; lia|]. cbn [rbind].
  set (t0 := repeat Byte.x00 _).
  assert (Lt0 : length t0 = length sep + length enc) by (unfold t0; rewrite repeat_length; lia).
  rewrite <- (app_nil_l t0). rewrite u8_set_split by (simpl; lia || reflexivity).
  rewrite app_nil_l. cbn [rbind].
  rewrite u8_set_split by (rewrite ?length_skipn; lia). cbn [rbind].
  rewrite app_assoc, u8_set_split by (rewrite ?length_app, ?length_skipn; lia). cbn [rbind].
  rewrite app_assoc, u8_set_split by (rewrite ?length_app, ?length_skipn; lia).
  rewrite skipn_all2 by (rewrite !length_skipn; lia).
  rewrite Henc, !app_assoc, app_nil_r. reflexivity.
Qed.

(** ** Running the steps *)

Lemma bind_ok_inv {A B} (m : M A) (k : A -> M B) st b st' :
  bind m k st = (Ok b, st') -> exists a st1, m st = (Ok a, st1) /\ k a st1 = (Ok b, st').
Proof. unfold bind. destruct (m st) as [[a|e] st1]; [eauto | discriminate]. Qed.

Ltac inv_bind H a s Hm := apply bind_ok_inv in H; destruct H as [a [s [Hm H]]].

Section Runs.
Context {P : Platform}.

Lemma bind_err_inv {A B} (m : M A) (k : A -> M B) st e st' :
  bind m k st = (Err e, st') ->
  m st = (Err e, st') \/ exists a st1, m st = (Ok a, st1) /\ k a st1 = (Err e, st').
Proof. unfold bind. destruct (m st) as [[a|e0] st1]; [eauto | intros H; inversion H; auto]. Qed.

Lemma lift_inv {A} (r : result A) st a st' : lift r st = (Ok a, st') -> r = Ok a /\ st' = st.
Proof. unfold lift. intros H. now inversion H. Qed.

Lemma bytes_eqb_eq (a b : bytes) : bytes_eqb a b = true <-> a = b.
Proof.
  revert b. induction a as [|x a IH]; intros [|y b]; simpl; split; try congruence.
  - rewrite andb_true_iff, IH. intros [Hx ->]. now apply Byte.byte_dec_bl in Hx as ->.
  - intros H. inversion H; subst. rewrite andb_true_iff, IH. split; [|reflexivity].
    apply Byte.byte_dec_lb. reflexivity.
Qed.

Lemma areUint8ArraysEqual_eq (a b : bytes) : areUint8ArraysEqual a b = true <-> a = b.
Proof.
  unfold areUint8ArraysEqual. rewrite andb_true_iff, bytes_eqb_eq, Nat.eqb_eq.
  split; [tauto | intros ->; auto].
Qed.

Lemma verifyEnvelope_inv data sig sk st r st' :
  verifyEnvelope data sig sk st = (r, st') ->
  (exists e, r = Err e /\ st' = st)
  \/ exists sb, base64ToUint8Array sig = Ok sb
     /\ trace st' = trace st ++ [EvVerify (text_encode (canonicalize data))
                                          (verify_accepts sk sb (text_encode (canonicalize data)))]
     /\ (r = Ok (verify_accepts sk sb (text_encode (canonicalize data)))
         \/ (exists e, r = Err e) /\ verify_accepts sk sb (text_encode (canonicalize data)) = false).
Proof.
  unfold verifyEnvelope, bind, lift.
  destruct (base64ToUint8Array sig) as [sb|e] eqn:Hd; [|intros H; inversion H; eauto].
  unfold verifyEnvelopeWithRSA, verifyEnvelopeWithEC, subtle_verify_rsa_pss,
    subtle_verify_ecdsa, emit, ret, throw.
  intros H. destruct sk as [| | | | |name]; simpl in H;
    try destruct (String.eqb name "RSA-PSS"); try destruct (String.eqb name "ECDSA");
    simpl in H; inversion H; subst;
    first [ left; now eauto
          | right; exists sb; split; [reflexivity | split; [reflexivity | simpl; eauto]] ].
Qed.

(** What a successful [unsealCore] has established, step by step. *)
Lemma unsealCore_ok_inv sep env rk rid sks st out st' :
  unsealCore sep env rk rid sks st = (Ok out, st') ->
  exists senderKey sigBytes st1 raw st2 encrypted ctxInput,
    obj_get sks (kid env) = JsOwn senderKey
    /\ base64ToUint8Array (signature env) = Ok sigBytes
    /\ verify_accepts senderKey sigBytes (signing_input (kid env) (cek env) (payload env)) = true
    /\ verifyEnvelope (envelope_json (kid env) (cek env) (payload env)) (signature env) senderKey st
       = (Ok true, st1)
    /\ decryptCEK (obj_get (cek env) rid) rk st1 = (Ok (AesKey raw), st2)
    /\ base64ToUint8Array (payload env) = Ok encrypted
    /\ build_ctx_input (text_encode sep) encrypted = Ok ctxInput
    /\ base64ToUint8Array (ctx env) = Ok (sha256 ctxInput)
    /\ aes_gcm_decrypt raw (subarray encrypted 0%Z (Some 12%Z)) (subarray encrypted 12%Z None)
       = Some out.
Proof.
  unfold unsealCore. destruct (obj_get sks (kid env)) as [|senderKey|] eqn:Hs.
  - intros H. discriminate H.
  - intros H. inv_bind H ok st1 Hv.
    destruct ok; simpl in H; [|discriminate H].
    inv_bind H k st2 Hk.
    inv_bind H encrypted st3 Hp. apply lift_inv in Hp as [Hp ->].
    inv_bind H ctxInput st3 Hc. apply lift_inv in Hc as [Hc ->].
    inv_bind H computed st3 Hdg. unfold subtle_digest_sha256, bind, emit, ret in Hdg.
    simpl in Hdg. inversion Hdg; subst. clear Hdg.
    inv_bind H expected st4 Hx. apply lift_inv in Hx as [Hx ->].
    destruct (areUint8ArraysEqual (sha256 ctxInput) expected) eqn:He; simpl in H;
      [|discriminate H].
    apply areUint8ArraysEqual_eq in He. subst expected.
    inv_bind H dec st5 Hdec. unfold ret in H. inversion H; subst. clear H.
    unfold subtle_decrypt_aes_gcm, bind, emit in Hdec. simpl in Hdec.
    destruct k as [raw| | | | |]; simpl in Hdec; try discriminate Hdec.
    unfold lift_opt in Hdec.
    destruct (aes_gcm_decrypt raw _ _) as [o|] eqn:Hd; inversion Hdec; subst.
    pose proof (verifyEnvelope_inv _ _ _ _ _ _ Hv) as
      [[e [He _]] | [sb [Hsb [_ [Hr | [[e He] _]]]]]]; try discriminate He.
    inversion Hr as [Hacc].
    exists senderKey, sb, st1, raw, st2, encrypted, ctxInput. unfold signing_input.
    repeat split; auto.
  - intros H. inv_bind H sb st1 Hsb. unfold throw in H. discriminate H.
Qed.

Lemma generateCEK_inv st k st1 :
  generateCEK st = (Ok k, st1) -> exists raw, k = AesKey raw /\ length raw = 32.
Proof.
  unfold generateCEK, subtle_generateKey_aes, bind, emit, draw, ret. cbn -[seq].
  intros H. inversion H. eexists; split; reflexivity.
Qed.

Lemma encryptPayload_inv pl raw st ep st1 :
  encryptPayload pl (AesKey raw) st = (Ok ep, st1) ->
  exists iv, length iv = 12 /\ ep = iv ++ aes_gcm_encrypt raw iv (plaintext_bytes pl).
Proof.
  unfold encryptPayload, getRandomValues, subtle_encrypt_aes_gcm, bind, emit, draw, ret, lift.
  cbn -[seq u8_concat]. rewrite u8_concat_ok. intros H. injection H as <- _.
  exists (map (rng st) (seq (pos st) 12)).
  split; [now rewrite length_map, length_seq | reflexivity].
Qed.

(** The message [signEnvelope] signs is the UTF-8 canonical form of [data],
    and the signature is the platform's, made with the sender's private key. *)
Lemma signEnvelope_inv data sk st s st1 :
  signEnvelope data sk st = (Ok s, st1) ->
  exists sig, s = base64 sig
  /\ trace st1 = trace st ++ [EvSign (text_encode (canonicalize data))]
  /\ ((exists m salt, sk = RsaPssKey m /\ sig = rsa_pss_sign m salt (text_encode (canonicalize data)))
      \/ (exists c m nonce, sk = EcdsaKey c m
                          /\ sig = ecdsa_sign c m nonce (text_encode (canonicalize data)))).
Proof.
  unfold signEnvelope, signEnvelopeWithRSA, signEnvelopeWithEC, subtle_sign_rsa_pss,
    subtle_sign_ecdsa, bind, emit, draw, ret, throw.
  destruct sk as [| | | | |name]; simpl;
    try destruct (String.eqb name "RSA-PSS"); try destruct (String.eqb name "ECDSA");
    simpl; intros H; inversion H; subst; eexists; (split; [reflexivity|]);
    (split; [reflexivity|]); eauto 7.
Qed.

(** What a successful [sealCore] has computed. *)
Lemma sealCore_ok_inv sep pl sk skid rks st env st' :
  sealCore sep pl sk skid rks st = (Ok env, st') ->
  exists raw iv st1 st2 ceks st3 ctxInput,
    length raw = 32 /\ length iv = 12
    /\ encrypt_ceks (AesKey raw) (obj_entries rks) [] st1 = (Ok ceks, st2)
    /\ kid env = skid /\ cek env = ceks
    /\ payload env = base64 (iv ++ aes_gcm_encrypt raw iv (plaintext_bytes pl))
    /\ signEnvelope (envelope_json skid ceks (payload env)) sk st2 = (Ok (signature env), st3)
    /\ build_ctx_input (text_encode sep) (iv ++ aes_gcm_encrypt raw iv (plaintext_bytes pl))
       = Ok ctxInput
    /\ ctx env = base64 (sha256 ctxInput).
Proof.
  unfold sealCore.
  destruct (Nat.eqb _ 0); [intros H; discriminate H|].
  destruct (existsb _ _); [intros H; discriminate H|].
  intros H. inv_bind H k st0 Hg. apply generateCEK_inv in Hg as [raw [-> Lraw]].
  inv_bind H ep st1 Hep. apply encryptPayload_inv in Hep as [iv [Liv ->]].
  inv_bind H ceks st2 Hceks.
  inv_bind H sg st3 Hsig.
  inv_bind H ci st4 Hci. apply lift_inv in Hci as [Hci ->].
  inv_bind H tag st5 Htag. unfold subtle_digest_sha256, bind, emit, ret in Htag.
  simpl in Htag. inversion Htag; subst. unfold ret in H. inversion H; subst. simpl.
  exists raw, iv, st1, st2, ceks, st3, ci. repeat split; auto.
Qed.

End Runs.

Section Laws.
Context {P : Platform} {L : PlatformLaws P}.

(** The payload and the commitment of a sealed envelope. *)
Lemma sealCore_ok_payload sep pl sk skid rks st env st' :
  sealCore sep pl sk skid rks st = (Ok env, st') ->
  exists raw iv, length raw = 32 /\ length iv = 12
  /\ base64ToUint8Array (payload env) = Ok (iv ++ aes_gcm_encrypt raw iv (plaintext_bytes pl))
  /\ base64ToUint8Array (ctx env)
     = Ok (sha256 (text_encode sep ++ iv ++ aes_gcm_encrypt raw iv (plaintext_bytes pl))).
Proof.
  intros H.
  destruct (sealCore_ok_inv _ _ _ _ _ _ _ _ H)
    as [raw [iv [st1 [st2 [ceks [st3 [ci [Lraw [Liv [_ [_ [_ [Hp [_ [Hci Hc]]]]]]]]]]]]]]].
  exists raw, iv. repeat split; auto.
  - now rewrite Hp, base64_roundtrip.
  - rewrite build_ctx_input_ok in Hci by (rewrite length_app, aes_gcm_length; lia).
    inversion Hci; subst. now rewrite Hc, base64_roundtrip.
Qed.

Lemma sealCore_commitment_ok sep pl sk skid rks st env st' :
  sealCore sep pl sk skid rks st = (Ok env, st') -> commitment_ok sep env.
Proof.
  intros H. destruct (sealCore_ok_payload _ _ _ _ _ _ _ _ H)
    as [raw [iv [Lraw [Liv [Hp Hc]]]]].
  exists (iv ++ aes_gcm_encrypt raw iv (plaintext_bytes pl)),
    (text_encode sep ++ iv ++ aes_gcm_encrypt raw iv (plaintext_bytes pl)).
  repeat split; auto.
  apply build_ctx_input_ok. rewrite length_app, aes_gcm_length. lia.
Qed.

End Laws.

(** ** Provider calls of the unsealing steps *)

Ltac emits :=
  repeat match goal with
  | |- Emits _ (bind _ _) => apply Emits_bind; [|intro]
  | |- Emits _ (ret _) => apply Emits_ret
  | |- Emits _ (throw _) => apply Emits_throw
  | |- Emits _ (lift _) => apply Emits_lift
  | |- Emits _ (lift_opt _ _) => apply Emits_lift_opt
  | |- Emits _ (emit _) => apply Emits_emit; reflexivity
  | |- Emits _ (draw _) => apply Emits_draw
  | |- Emits _ (let _ := _ in _) => cbv zeta
  | |- Emits _ (match ?x with _ => _ end) => destruct x
  | |- Emits _ (if ?b then _ else _) => destruct b
  end.

Section Phases.
Context {P : Platform}.

(** Every provider call of [decryptCEK] belongs to the CEK unwrap. *)
Lemma Emits_decryptCEK v rk : Emits (fun e => unseal_phase e = 2) (decryptCEK v rk).
Proof.
  unfold decryptCEK, decryptCEKWithRSA, decryptCEKWithECDH, subtle_decrypt_rsa_oaep,
    subtle_importKey_raw_aes, subtle_importKey_raw_ecdh, subtle_deriveKey_ecdh,
    subtle_unwrapKey_raw_aes_gcm.
  emits.
Qed.

Lemma nondecreasing_cons x l :
  nondecreasing (x :: l) = true
  <-> (match l with [] => True | y :: _ => x <= y end) /\ nondecreasing l = true.
Proof.
  destruct l as [|y l]; simpl; [tauto|].
  rewrite andb_true_iff, Nat.leb_le. tauto.
Qed.

Lemma phases_sorted (l2 tail : list event) :
  Forall (fun e => unseal_phase e = 2) l2 ->
  Forall (fun e => 2 <= unseal_phase e) tail ->
  nondecreasing (map unseal_phase tail) = true ->
  nondecreasing (map unseal_phase (l2 ++ tail)) = true.
Proof.
  intros F2 Ft Ht. induction F2 as [|e l2 He F2 IH]; [exact Ht|].
  simpl. apply nondecreasing_cons. split; [|exact IH].
  destruct l2 as [|e' l2]; simpl.
  - destruct tail as [|e' tail]; [exact I|]. inversion Ft; subst. simpl. lia.
  - inversion F2; subst. lia.
Qed.

Lemma phases_two (l2 : list event) :
  Forall (fun e => unseal_phase e = 2) l2 -> Forall (fun e => 2 <= unseal_phase e) l2.
Proof. intros F. eapply Forall_impl; [|exact F]. simpl. lia. Qed.

Lemma no_aes_decrypt_in_unwrap (l2 : list event) :
  Forall (fun e => unseal_phase e = 2) l2 -> ~ In (EvDecrypt "AES-GCM") l2.
Proof.
  intros F Hin. rewrite Forall_forall in F. specialize (F _ Hin). discriminate F.
Qed.

End Phases.

Section ClaimOrder.
Context {P : Platform}.

Lemma order_pack sep env st st1 st' (r : result bytes) ok rest :
  trace st1 = trace st ++ [EvVerify (signing_input (kid env) (cek env) (payload env)) ok] ->
  trace st' = trace st1 ++ rest ->
  (rest <> [] -> ok = true) ->
  Forall (fun e => 2 <= unseal_phase e) rest ->
  nondecreasing (map unseal_phase rest) = true ->
  (In (EvDecrypt "AES-GCM") rest -> commitment_ok sep env) ->
  (forall out, r = Ok out -> commitment_ok sep env /\ In (EvDecrypt "AES-GCM") rest) ->
  exists evs, trace st' = trace st ++ evs
  /\ (evs = [] \/ exists ok rest,
        evs = EvVerify (signing_input (kid env) (cek env) (payload env)) ok :: rest
        /\ (rest <> [] -> ok = true)
        /\ Forall (fun e => 2 <= unseal_phase e) rest
        /\ nondecreasing (map unseal_phase rest) = true
        /\ (In (EvDecrypt "AES-GCM") rest -> commitment_ok sep env))
  /\ (forall out, r = Ok out -> commitment_ok sep env /\ In (EvDecrypt "AES-GCM") evs).
Proof.
  intros H1 H2 Hok F Hn Hc Hr. exists (EvVerify (signing_input (kid env) (cek env) (payload env)) ok :: rest).
  split; [now rewrite H2, H1, <- app_assoc|]. split.
  - right. exists ok, rest. repeat split; auto.
  - intros out Hout. destruct (Hr out Hout) as [Hc' Hin]. split; [exact Hc'|now right].
Qed.

Lemma order_pack_empty sep env st st' (r : result bytes) :
  trace st' = trace st -> (forall out, r <> Ok out) ->
  exists evs, trace st' = trace st ++ evs
  /\ (evs = [] \/ exists ok rest,
        evs = EvVerify (signing_input (kid env) (cek env) (payload env)) ok :: rest
        /\ (rest <> [] -> ok = true)
        /\ Forall (fun e => 2 <= unseal_phase e) rest
        /\ nondecreasing (map unseal_phase rest) = true
        /\ (In (EvDecrypt "AES-GCM") rest -> commitment_ok sep env))
  /\ (forall out, r = Ok out -> commitment_ok sep env /\ In (EvDecrypt "AES-GCM") evs).
Proof.
  intros Ht Hr. exists []. split; [now rewrite app_nil_r|]. split; [now left|].
  intros out Hout. exfalso. exact (Hr out Hout).
Qed.

Lemma order_pack2 sep env st st1 st2 st' (r : result bytes) l2 tail :
  trace st1 = trace st ++ [EvVerify (signing_input (kid env) (cek env) (payload env)) true] ->
  trace st2 = trace st1 ++ l2 -> Forall (fun e => unseal_phase e = 2) l2 ->
  trace st' = trace st2 ++ tail ->
  Forall (fun e => 2 <= unseal_phase e) tail ->
  nondecreasing (map unseal_phase tail) = true ->
  (In (EvDecrypt "AES-GCM") tail -> commitment_ok sep env) ->
  (forall out, r = Ok out -> commitment_ok sep env /\ In (EvDecrypt "AES-GCM") tail) ->
  exists evs, trace st' = trace st ++ evs
  /\ (evs = [] \/ exists ok rest,
        evs = EvVerify (signing_input (kid env) (cek env) (payload env)) ok :: rest
        /\ (rest <> [] -> ok = true)
        /\ Forall (fun e => 2 <= unseal_phase e) rest
        /\ nondecreasing (map unseal_phase rest) = true
        /\ (In (EvDecrypt "AES-GCM") rest -> commitment_ok sep env))
  /\ (forall out, r = Ok out -> commitment_ok sep env /\ In (EvDecrypt "AES-GCM") evs).
Proof.
  intros H1 H2 F2 H3 Ft Hn Hc Hr.
  apply (order_pack sep env st st1 st' r true (l2 ++ tail) H1).
  - now rewrite H3, H2, app_assoc.
  - reflexivity.
  - apply Forall_app. split; [apply phases_two|]; assumption.
  - apply phases_sorted; assumption.
  - intros Hin. apply in_app_or in Hin as [Hin|Hin];
      [exfalso; exact (no_aes_decrypt_in_unwrap _ F2 Hin) | auto].
  - intros out Hout. destruct (Hr out Hout). split; [assumption|]. apply in_or_app. now right.
Qed.

Ltac close_order :=
  first [ reflexivity | assumption | now rewrite app_nil_r
        | intros ?Hne; exfalso; now apply Hne
        | simpl; tauto | discriminate
        | intros ?out ?Hout; discriminate Hout ].

(** The provider calls [unsealCore] makes, by step. *)
Lemma unsealCore_trace_shape sep env rk rid sks st r st' :
  unsealCore sep env rk rid sks st = (r, st') ->
  exists evs, trace st' = trace st ++ evs
  /\ (evs = [] \/ exists ok rest,
        evs = EvVerify (signing_input (kid env) (cek env) (payload env)) ok :: rest
        /\ (rest <> [] -> ok = true)
        /\ Forall (fun e => 2 <= unseal_phase e) rest
        /\ nondecreasing (map unseal_phase rest) = true
        /\ (In (EvDecrypt "AES-GCM") rest -> commitment_ok sep env))
  /\ (forall out, r = Ok out -> commitment_ok sep env /\ In (EvDecrypt "AES-GCM") evs).
Proof.
  unfold unsealCore, bind, lift, throw, ret. intros H.
  destruct (obj_get sks (kid env)) as [|sk|] eqn:Hs.
  - inversion H; subst. apply order_pack_empty; [reflexivity | discriminate].
  - destruct (verifyEnvelope _ _ _ st) as [[ok|e] st1] eqn:Hv;
      destruct (verifyEnvelope_inv _ _ _ _ _ _ Hv)
        as [[e' [He' ->]] | [sb [Hsb [Ht1 Hr1]]]];
      try discriminate He'; try fold (signing_input (kid env) (cek env) (payload env)) in Ht1.
    + (* the verification ran *)
      destruct Hr1 as [Hr1 | [[e' He'] _]]; [|discriminate He'].
      injection Hr1 as Hok. unfold signing_input in Ht1. rewrite <- Hok in Ht1.
      fold (signing_input (kid env) (cek env) (payload env)) in Ht1.
      destruct ok; simpl in H.
      2:{ inversion H; subst. eapply (order_pack _ _ _ _ _ _ _ []); eauto; close_order. }
      destruct (decryptCEK (obj_get (cek env) rid) rk st1) as [[k|e] st2] eqn:Hd;
        pose proof (Emits_decryptCEK (obj_get (cek env) rid) rk st1) as [l2 [Ht2 F2]];
        rewrite Hd in Ht2; simpl in Ht2.
      2:{ inversion H; subst. eapply (order_pack _ _ _ _ _ _ _ l2); eauto;
          first [ apply phases_two, F2 | rewrite <- (app_nil_r l2); apply phases_sorted; auto
                | intros Hin; exfalso; exact (no_aes_decrypt_in_unwrap _ F2 Hin) | close_order ]. }
      destruct (base64ToUint8Array (payload env)) as [enc|e] eqn:Hp; simpl in H.
      2:{ inversion H; subst. eapply (order_pack2 _ _ _ _ _ _ _ l2 []); eauto;
          first [ now rewrite app_nil_r | close_order ]. }
      destruct (build_ctx_input (text_encode sep) enc) as [ci|e] eqn:Hci; simpl in H.
      2:{ inversion H; subst. eapply (order_pack2 _ _ _ _ _ _ _ l2 []); eauto;
          first [ now rewrite app_nil_r | close_order ]. }
      unfold subtle_digest_sha256, subtle_decrypt_aes_gcm, emit, bind, lift_opt in H.
      simpl in H.
      destruct (base64ToUint8Array (ctx env)) as [expected|e] eqn:Hx; simpl in H.
      2:{ inversion H; subst. eapply (order_pack2 _ _ _ _ _ _ _ l2 [EvDigest ci]); eauto;
          first [ reflexivity | solve [repeat constructor] | intros [Hin|[]]; discriminate Hin
                | close_order ]. }
      destruct (areUint8ArraysEqual (sha256 ci) expected) eqn:He; simpl in H.
      2:{ inversion H; subst. eapply (order_pack2 _ _ _ _ _ _ _ l2 [EvDigest ci]); eauto;
          first [ reflexivity | solve [repeat constructor] | intros [Hin|[]]; discriminate Hin
                | close_order ]. }
      apply areUint8ArraysEqual_eq in He. subst expected.
      assert (Hc : commitment_ok sep env) by (exists enc, ci; auto).
      destruct k as [raw| | | | |]; simpl in H;
        try destruct (aes_gcm_decrypt raw _ _); inversion H; subst;
        eapply (order_pack2 _ _ _ _ _ _ _ l2 [EvDigest ci; EvDecrypt "AES-GCM"]); eauto;
        first [ simpl; now rewrite <- !app_assoc | solve [repeat constructor] | reflexivity
              | intros _; exact Hc
              | intros ?out ?Hout; split; [exact Hc | simpl; auto]
              | close_order ].
    + inversion H; subst. apply order_pack_empty; [reflexivity | discriminate].
    + inversion H; subst. eapply (order_pack _ _ _ _ _ _ _ []); eauto; close_order.
  - destruct (base64ToUint8Array (signature env)); inversion H; subst;
      apply order_pack_empty; (reflexivity || discriminate).
Qed.

(** C3: the provider calls of [unsealCore] come in the fixed order of its
    steps.  The calls it adds to the trace are none at all (the sender lookup
    failed, or the signature did not decode), or the verification of the
    signature over the canonical [{kid, cek, payload}] followed by calls of the
    later steps only: CEK unwrap (phase 2), commitment (phase 3) and payload
    decryption (phase 4), in nondecreasing order.  No call follows a failed
    verification, the payload is decrypted only after the recomputed commitment
    equalled [envelope.ctx], and a returned plaintext implies both. *)
Theorem unsealCore_step_order sep env rk rid sks st r st' :
  unsealCore sep env rk rid sks st = (r, st') ->
  exists evs, trace st' = trace st ++ evs
  /\ (evs = [] \/ exists ok rest,
        evs = EvVerify (signing_input (kid env) (cek env) (payload env)) ok :: rest
        /\ (rest <> [] -> ok = true)
        /\ Forall (fun e => 2 <= unseal_phase e) rest
        /\ nondecreasing (map unseal_phase rest) = true
        /\ (In (EvDecrypt "AES-GCM") rest -> commitment_ok sep env))
  /\ (forall out, r = Ok out -> commitment_ok sep env /\ In (EvDecrypt "AES-GCM") evs).
Proof. apply unsealCore_trace_shape. Qed.

End ClaimOrder.

Section ClaimSign.
Context {P : Platform}.

(** C6: the signature of a sealed envelope is the sender's RSA-PSS or ECDSA
    signature of the UTF-8 canonical form of exactly [{kid, cek, payload}] of
    that envelope ([ctx] is not part of it), and every verification call
    [unsealCore] makes, on any envelope, is over that same object
    [{kid, cek, payload}] of the envelope it is given. *)
Theorem signature_over_kid_cek_payload sep pl sk skid rks st env st' :
  sealCore sep pl sk skid rks st = (Ok env, st') ->
  (exists sg, signature env = base64 sg
   /\ ((exists m salt, sk = RsaPssKey m
          /\ sg = rsa_pss_sign m salt (signing_input (kid env) (cek env) (payload env)))
       \/ (exists c m nonce, sk = EcdsaKey c m
          /\ sg = ecdsa_sign c m nonce (signing_input (kid env) (cek env) (payload env)))))
  /\ (forall env' rk rid sks st2 r st3,
        unsealCore sep env' rk rid sks st2 = (r, st3) ->
        exists evs, trace st3 = trace st2 ++ evs
        /\ forall msg ok, In (EvVerify msg ok) evs ->
             msg = signing_input (kid env') (cek env') (payload env')).
Proof.
  intros H.
  destruct (sealCore_ok_inv _ _ _ _ _ _ _ _ H)
    as [raw [iv [st1 [st2 [ceks [st3 [ci [_ [_ [_ [Hk [Hc [_ [Hs _]]]]]]]]]]]]]].
  apply signEnvelope_inv in Hs as [sg [Hsg [_ Halg]]].
  split.
  - exists sg. split; [exact Hsg|]. unfold signing_input. rewrite Hk, Hc. exact Halg.
  - intros env' rk rid sks st4 r st5 Hu.
    destruct (unsealCore_trace_shape _ _ _ _ _ _ _ _ Hu) as [evs [Ht [Hsh _]]].
    exists evs. split; [exact Ht|]. intros msg ok Hin.
    destruct Hsh as [->|[ok' [rest [-> [_ [F _]]]]]]; [destruct Hin|].
    destruct Hin as [Heq|Hin]; [inversion Heq; reflexivity|].
    rewrite Forall_forall in F. specialize (F _ Hin). simpl in F. lia.
Qed.

End ClaimSign.

Section ClaimGate.
Context {P : Platform}.

(** C4: when the sender is known and the signature verifies but [envelope.cek]
    has no entry for the caller's key id, [unsealCore] fails with the
    [TypeError] of decoding [undefined] as base64, not with a
    ["No CEK found for recipient"] error, and before any further provider
    call: the state is the one the verification left. *)
Theorem unsealCore_missing_cek sep env rk rid sks st sk st1 :
  obj_get sks (kid env) = JsOwn sk ->
  verifyEnvelope (envelope_json (kid env) (cek env) (payload env)) (signature env) sk st
    = (Ok true, st1) ->
  obj_lookup (cek env) rid = None ->
  unsealCore sep env rk rid sks st = (Err TypeError, st1).
Proof.
  intros Hs Hv Hl. unfold unsealCore. rewrite Hs.
  unfold bind at 1. rewrite Hv. cbn [negb].
  unfold decryptCEK, obj_get at 1, bind, lift. rewrite Hl.
  destruct (is_proto_member rid); reflexivity.
Qed.

End ClaimGate.

(** C10: [seal] with requested ids that are all known does not always give a
    [cek] with one entry per distinct requested id.  On a sealer that knows
    the ids ["__proto__"] and ["alice"], the request [["__proto__"]] fails
    with ["No recipients specified"] (the assignment
    [recipientKeyMap["__proto__"] = key] sets the prototype and adds no own
    key), and the request [["alice"; "__proto__"; "alice"]] succeeds with the
    [cek] keys [["alice"]] only.  Duplicates alone are harmless. *)
Theorem seal_proto_recipient_id :
  fst (Sealer.seal Toy.sep0 Toy.proto_sealer (PText "hi") ["__proto__"]%string Toy.st0)
    = Err (Error "No recipients specified")
  /\ match fst (Sealer.seal Toy.sep0 Toy.proto_sealer (PText "hi")
                  ["alice"; "__proto__"; "alice"]%string Toy.st0) with
     | Ok env => obj_keys (cek env) = ["alice"]%string
     | Err _ => False
     end.
Proof. split; vm_compute; reflexivity. Qed.

(** ** The CEK wrap and unwrap steps *)

Section Wrap.
Context {P : Platform}.

Lemma firstn_app_exact {A} (x y : list A) n : length x = n -> firstn n (x ++ y) = x.
Proof. intros <-. rewrite firstn_app, firstn_all, Nat.sub_diag, firstn_O. apply app_nil_r. Qed.

Lemma skipn_app_exact {A} (x y : list A) n : length x = n -> skipn n (x ++ y) = y.
Proof. intros <-. rewrite skipn_app, skipn_all, Nat.sub_diag. reflexivity. Qed.

Lemma subarray_prefix (a : bytes) (z : Z) :
  (0 <= z <= Z.of_nat (length a))%Z -> subarray a 0%Z (Some z) = firstn (Z.to_nat z) a.
Proof.
  intros Hz. unfold subarray.
  rewrite (rel_index_nonneg _ 0), (rel_index_nonneg _ z) by lia.
  now rewrite Z.sub_0_r.
Qed.

Lemma subarray_suffix (a : bytes) (z : Z) :
  (0 <= z <= Z.of_nat (length a))%Z -> subarray a z None = skipn (Z.to_nat z) a.
Proof.
  intros Hz. unfold subarray. rewrite (rel_index_nonneg _ z) by lia.
  apply firstn_all2. rewrite length_skipn. lia.
Qed.

Lemma generateKey_ecdh_inv c st kp st1 :
  subtle_generateKey_ecdh c st = (Ok kp, st1) ->
  exists d, kp = {| publicKey := EcdhKey c (ec_public c d); privateKey := EcdhKey c d |}.
Proof.
  unfold subtle_generateKey_ecdh, bind, emit, draw, ret. intros H. injection H as <- _. eauto.
Qed.

Lemma getRandomValues_inv n st x st1 : getRandomValues n st = (Ok x, st1) -> length x = n.
Proof.
  unfold getRandomValues, bind, emit, draw. intros H. injection H as <- _.
  now rewrite length_map, length_seq.
Qed.

(** The output of [encryptCEK] for an [ECDH] recipient: the raw ephemeral
    public key, the IV and the wrapped CEK. *)
Lemma encryptCEK_ecdh_inv raw c q st out st' :
  encryptCEK (AesKey raw) (EcdhKey c q) st = (Ok out, st') ->
  exists d iv, length iv = 12
  /\ out = ec_export_raw c (ec_public c d) ++ iv
           ++ aes_gcm_encrypt (firstn 32 (ecdh_secret c d q)) iv raw.
Proof.
  unfold encryptCEK. simpl. intros H.
  inv_bind H kp st1 Hkp. apply generateKey_ecdh_inv in Hkp as [d ->].
  inv_bind H eb st2 Heb. unfold subtle_exportKey_raw, bind, emit, ret in Heb. simpl in Heb.
  injection Heb as <- <-.
  inv_bind H wb st3 Hwb. apply lift_inv in H as [H ->]. rewrite u8_concat_ok in H.
  injection H as <-.
  unfold encryptCEKWithECDH in Hwb. simpl in Hwb.
  inv_bind Hwb sk st4 Hsk. unfold subtle_deriveKey_ecdh, bind, emit, ret, throw in Hsk.
  simpl in Hsk. replace (curve_eqb c c) with true in Hsk by (destruct c; reflexivity).
  destruct (Nat.ltb _ 32); [discriminate Hsk|]. injection Hsk as <- <-.
  inv_bind Hwb iv st5 Hiv. pose proof (getRandomValues_inv _ _ _ _ Hiv) as Liv.
  inv_bind Hwb w st6 Hw. unfold subtle_wrapKey_raw_aes_gcm, bind, emit, ret in Hw.
  simpl in Hw. injection Hw as <- <-.
  apply lift_inv in Hwb as [Hwb ->]. rewrite u8_concat_ok in Hwb. injection Hwb as <-.
  exists d, iv. split; [exact Liv | reflexivity].
Qed.

End Wrap.

Section Unwrap.
Context {P : Platform} {L : PlatformLaws P}.

(** [decryptCEK] takes the first 65 bytes as the ephemeral key: a P-384
    recipient never obtains it, an uncompressed P-384 point has 97 bytes. *)
Lemma decryptCEK_p384_fails (out : bytes) sk st :
  65 <= length out ->
  exists st1, decryptCEK (JsOwn (base64 out)) (EcdhKey P_384 sk) st = (Err DataError, st1).
Proof.
  intros Hlen. unfold decryptCEK, bind, lift. simpl base64_of_val.
  rewrite base64_roundtrip. cbn -[subarray subtle_importKey_raw_ecdh decryptCEKWithECDH].
  rewrite subarray_prefix by lia. change (Z.to_nat 65) with 65.
  destruct (ec_import_raw P_384 (firstn 65 out)) as [k|] eqn:E.
  - apply ec_import_length in E. rewrite length_firstn in E. cbn [coord_len] in E. lia.
  - unfold subtle_importKey_raw_ecdh, bind, emit, lift_opt. rewrite E. simpl. eauto.
Qed.

(** [decryptCEK] undoes the [ECDH] wrap of [encryptCEK] on P-256. *)
Lemma decryptCEK_p256_ok raw b e iv st :
  aes_key_length_ok raw = true -> length iv = 12 ->
  exists st1,
    decryptCEK (JsOwn (base64 (ec_export_raw P_256 (ec_public P_256 e) ++ iv
                   ++ aes_gcm_encrypt (firstn 32 (ecdh_secret P_256 e (ec_public P_256 b))) iv raw)))
      (EcdhKey P_256 b) st = (Ok (AesKey raw), st1).
Proof.
  intros Hraw Hiv.
  set (w := aes_gcm_encrypt _ iv raw).
  set (x := ec_export_raw P_256 (ec_public P_256 e)).
  assert (Lx : length x = 65) by (unfold x; now rewrite ec_export_length).
  assert (Lw : length w = length raw + 16) by (unfold w; now rewrite aes_gcm_length).
  unfold decryptCEK, bind, lift. simpl base64_of_val.
  rewrite base64_roundtrip. cbn -[subarray subtle_importKey_raw_ecdh decryptCEKWithECDH].
  rewrite subarray_prefix by (rewrite !length_app; lia).
  rewrite subarray_suffix by (rewrite !length_app; lia).
  change (Z.to_nat 65) with 65.
  rewrite firstn_app_exact, skipn_app_exact by exact Lx.
  unfold subtle_importKey_raw_ecdh, bind, emit, lift_opt. simpl.
  unfold x. rewrite ec_import_export. simpl.
  unfold decryptCEKWithECDH, subtle_deriveKey_ecdh, subtle_unwrapKey_raw_aes_gcm, bind, emit.
  simpl. rewrite ecdh_agree, ecdh_length. simpl.
  rewrite subarray_prefix, subarray_suffix by (rewrite !length_app; lia).
  change (Z.to_nat 12) with 12.
  rewrite firstn_app_exact, skipn_app_exact by exact Hiv.
  unfold w. rewrite aes_gcm_roundtrip, Hraw. eexists. reflexivity.
Qed.

End Unwrap.

(** ** Own properties of the [cek] object *)

Section ObjFacts.
Context {V : Type}.

Lemma obj_lookup_app (o1 o2 : JsObj V) k :
  obj_lookup (o1 ++ o2) k
  = match obj_lookup o1 k with Some v => Some v | None => obj_lookup o2 k end.
Proof.
  induction o1 as [|[k' v'] o1 IH]; simpl; [reflexivity|].
  destruct (String.eqb k k'); [reflexivity | exact IH].
Qed.

Lemma obj_lookup_update_same (o : JsObj V) k v :
  obj_lookup o k <> None -> obj_lookup (obj_update o k v) k = Some v.
Proof.
  induction o as [|[k' v'] o IH]; simpl; [congruence|].
  destruct (String.eqb k k') eqn:E; simpl; rewrite ?E; auto.
Qed.

Lemma obj_lookup_update_other (o : JsObj V) k r v :
  k <> r -> obj_lookup (obj_update o k v) r = obj_lookup o r.
Proof.
  intros Hne. induction o as [|[k' v'] o IH]; simpl; [reflexivity|].
  destruct (String.eqb k k') eqn:E; simpl.
  - apply String.eqb_eq in E. subst k'.
    destruct (String.eqb r k) eqn:E'; [apply String.eqb_eq in E'; congruence | reflexivity].
  - now rewrite IH.
Qed.

Lemma obj_lookup_set_same (o : JsObj V) k v :
  k <> "__proto__"%string -> obj_lookup (obj_set o k v) k = Some v.
Proof.
  intros Hk. unfold obj_set. destruct (obj_lookup o k) eqn:E.
  - apply obj_lookup_update_same. congruence.
  - apply String.eqb_neq in Hk. rewrite Hk, obj_lookup_app, E. simpl.
    now rewrite String.eqb_refl.
Qed.

Lemma obj_lookup_set_other (o : JsObj V) k r v :
  k <> r -> obj_lookup (obj_set o k v) r = obj_lookup o r.
Proof.
  intros Hne. unfold obj_set. destruct (obj_lookup o k).
  - now apply obj_lookup_update_other.
  - destruct (String.eqb k "__proto__"); [reflexivity|].
    rewrite obj_lookup_app. simpl. destruct (obj_lookup o r); [reflexivity|].
    destruct (String.eqb r k) eqn:E; [apply String.eqb_eq in E; congruence | reflexivity].
Qed.

Lemma insert_by_index_perm (kv : string * V) (o : JsObj V) :
  Permutation (insert_by_index kv o) (kv :: o).
Proof.
  induction o as [|kv' o IH]; simpl; [reflexivity|].
  destruct (_ <? _)%N; [reflexivity|].
  rewrite IH. apply perm_swap.
Qed.

Lemma filter_split_perm {A} (f : A -> bool) (l : list A) :
  Permutation (filter f l ++ filter (fun x => negb (f x)) l) l.
Proof.
  induction l as [|x l IH]; simpl; [reflexivity|].
  destruct (f x); simpl.
  - now rewrite IH.
  - rewrite <- Permutation_middle. now rewrite IH.
Qed.

(** [Object.entries] lists the own properties, reordered. *)
Lemma obj_entries_perm (o : JsObj V) : Permutation (obj_entries o) o.
Proof.
  unfold obj_entries.
  eapply Permutation_trans; [|apply (filter_split_perm (fun kv => is_array_index (fst kv)) o)].
  apply Permutation_app_tail.
  induction (filter _ o) as [|kv l IH]; simpl; [reflexivity|].
  rewrite insert_by_index_perm. now apply perm_skip.
Qed.

End ObjFacts.

Section Ceks.
Context {P : Platform}.

Lemma encrypt_ceks_other cek es acc st res st' r :
  encrypt_ceks cek es acc st = (Ok res, st') -> ~ In r (map fst es) ->
  obj_lookup res r = obj_lookup acc r.
Proof.
  revert acc st. induction es as [|[k key] es IH]; intros acc st H Hr; simpl in *.
  - unfold ret in H. now inversion H.
  - inv_bind H out st1 Hout. rewrite (IH _ _ H) by tauto.
    apply obj_lookup_set_other. intros ->. tauto.
Qed.

(** Each own recipient id other than [__proto__] receives the base64 text of
    what [encryptCEK] returned for its key. *)
Lemma encrypt_ceks_in cek es acc st res st' r key :
  encrypt_ceks cek es acc st = (Ok res, st') -> NoDup (map fst es) -> In (r, key) es ->
  r <> "__proto__"%string ->
  exists st1 out st2, encryptCEK cek key st1 = (Ok out, st2)
                      /\ obj_lookup res r = Some (base64 out).
Proof.
  revert acc st. induction es as [|[k key'] es IH]; intros acc st H Hnd Hin Hr;
    [destruct Hin|]. simpl in H. inv_bind H out st1 Hout.
  inversion Hnd as [|? ? Hk Hnd']; subst.
  destruct Hin as [Heq|Hin].
  - injection Heq as -> ->. exists st, out, st1. split; [exact Hout|].
    rewrite (encrypt_ceks_other _ _ _ _ _ _ _ H Hk). now apply obj_lookup_set_same.
  - exact (IH _ _ H Hnd' Hin Hr).
Qed.

(** The same for the recipients of a sealed envelope. *)
Lemma sealCore_cek_entry sep pl sk skid rks st env st' r key :
  sealCore sep pl sk skid rks st = (Ok env, st') -> NoDup (map fst rks) ->
  obj_lookup rks r = Some key -> r <> "__proto__"%string ->
  exists raw st1 out st2, length raw = 32 /\ encryptCEK (AesKey raw) key st1 = (Ok out, st2)
                          /\ obj_get (cek env) r = JsOwn (base64 out).
Proof.
  intros H Hnd Hr Hp.
  destruct (sealCore_ok_inv _ _ _ _ _ _ _ _ H)
    as [raw [iv [st1 [st2 [ceks [st3 [ci [Lraw [_ [Hc [_ [Hcek _]]]]]]]]]]]].
  assert (Hin : In (r, key) (obj_entries rks)).
  { apply Permutation_in with (l := rks); [symmetry; apply obj_entries_perm|].
    clear -Hr. induction rks as [|[k v] rks IH]; simpl in *; [discriminate|].
    destruct (String.eqb r k) eqn:E; [apply String.eqb_eq in E; subst; left; congruence|].
    right. auto. }
  assert (Hnd' : NoDup (map fst (obj_entries rks))).
  { eapply Permutation_NoDup; [|exact Hnd]. apply Permutation_map.
    symmetry. apply obj_entries_perm. }
  destruct (encrypt_ceks_in _ _ _ _ _ _ _ _ Hc Hnd' Hin Hp) as [st4 [out [st5 [He Hl]]]].
  exists raw, st4, out, st5. split; [exact Lraw|]. split; [exact He|].
  rewrite Hcek. unfold obj_get. now rewrite Hl.
Qed.

End Ceks.

Section ClaimsLaws.
Context {P : Platform} {L : PlatformLaws P}.

(** C1 (the round trip fails for P-384 recipients): [sealCore] accepts an
    [ECDH] recipient key on P-384 and wraps the CEK after the 97-byte raw
    ephemeral key, but [decryptCEK] imports the first 65 bytes as that key,
    which no P-384 key has: whatever the sender keys, [unsealCore] with the
    recipient's private key and id never returns a plaintext. *)
Theorem roundtrip_fails_p384 sep pl sk skid rks st env st' r pk d sks st2 :
  sealCore sep pl sk skid rks st = (Ok env, st') -> NoDup (map fst rks) ->
  obj_lookup rks r = Some (EcdhKey P_384 pk) -> r <> "__proto__"%string ->
  forall out st3, unsealCore sep env (EcdhKey P_384 d) r sks st2 <> (Ok out, st3).
Proof.
  intros H Hnd Hr Hp out st3 Hu.
  destruct (sealCore_cek_entry _ _ _ _ _ _ _ _ _ _ H Hnd Hr Hp)
    as [raw [st4 [o [st5 [_ [He Hget]]]]]].
  destruct (encryptCEK_ecdh_inv _ _ _ _ _ _ He) as [e [iv [Liv ->]]].
  destruct (unsealCore_ok_inv _ _ _ _ _ _ _ _ Hu)
    as [sk' [sb [st1 [raw' [st6 [enc [ci [_ [_ [_ [_ [Hd _]]]]]]]]]]]].
  rewrite Hget in Hd.
  destruct (decryptCEK_p384_fails
              (ec_export_raw P_384 (ec_public P_384 e) ++ iv
               ++ aes_gcm_encrypt (firstn 32 (ecdh_secret P_384 e pk)) iv raw) d st1)
    as [st7 Hf].
  - rewrite !length_app, ec_export_length. cbn [coord_len]. lia.
  - rewrite Hf in Hd. discriminate Hd.
Qed.

(** C8: the payload of a sealed envelope decodes to the 12-byte IV, the
    ciphertext (as long as the plaintext) and the 16-byte tag. *)
Theorem sealCore_payload_length sep pl sk skid rks st env st' :
  sealCore sep pl sk skid rks st = (Ok env, st') ->
  exists bs, base64ToUint8Array (payload env) = Ok bs
  /\ length bs = 12 + length (plaintext_bytes pl) + 16 /\ 28 <= length bs.
Proof.
  intros H. destruct (sealCore_ok_payload _ _ _ _ _ _ _ _ H) as [raw [iv [_ [Liv [Hp _]]]]].
  eexists. split; [exact Hp|].
  rewrite length_app, aes_gcm_length, Liv. lia.
Qed.

(** C9: for a P-256 recipient the [ECDH] output of [encryptCEK] is the
    65-byte raw ephemeral public key, a 12-byte IV and the wrapped key with
    its tag, and [decryptCEK] with the recipient's private key recovers the
    CEK's raw bytes. *)
Theorem ecdh_p256_wrap_roundtrip raw b st out st' :
  aes_key_length_ok raw = true ->
  encryptCEK (AesKey raw) (EcdhKey P_256 (ec_public P_256 b)) st = (Ok out, st') ->
  (exists eph iv wrapped, out = eph ++ iv ++ wrapped
     /\ length eph = 65 /\ length iv = 12 /\ length wrapped = length raw + 16
     /\ exists e, eph = ec_export_raw P_256 (ec_public P_256 e))
  /\ forall st2, exists st3,
       decryptCEK (JsOwn (base64 out)) (EcdhKey P_256 b) st2 = (Ok (AesKey raw), st3).
Proof.
  intros Hraw He. destruct (encryptCEK_ecdh_inv _ _ _ _ _ _ He) as [e [iv [Liv ->]]].
  split.
  - do 3 eexists. split; [reflexivity|].
    rewrite ec_export_length, aes_gcm_length. repeat split; eauto.
  - intros st2. apply decryptCEK_p256_ok; assumption.
Qed.




(** C2 (corrected): what [unsealCore] detects of a change to a sealed
    envelope.  Another [kid] finds no key when the sender's key is registered
    under [senderKid] only; a [ctx] whose decoding differs from the original's
    fails the commitment check; and any envelope, in particular one with a
    changed [cek] entry, [payload] or [signature], yields a plaintext only
    when the platform accepted its decoded signature over its own canonical
    [{kid, cek, payload}] under the sender's key.  (A change of the base64
    text that leaves its decoding unchanged goes unnoticed.) *)
Theorem tamper_detection sep pl sk skid rks st env st' :
  sealCore sep pl sk skid rks st = (Ok env, st') ->
  (forall kid' pk rk rid st2 out st3, kid' <> skid ->
     unsealCore sep (mkEnvelope kid' (cek env) (payload env) (signature env) (ctx env))
       rk rid [(skid, pk)] st2 <> (Ok out, st3))
  /\ (forall ctx' rk rid sks st2 out st3,
      base64ToUint8Array ctx' <> base64ToUint8Array (ctx env) ->
      unsealCore sep (mkEnvelope (kid env) (cek env) (payload env) (signature env) ctx')
        rk rid sks st2 <> (Ok out, st3))
  /\ (forall env' rk rid sks st2 out st3,
      unsealCore sep env' rk rid sks st2 = (Ok out, st3) ->
      exists pk sb, obj_get sks (kid env') = JsOwn pk
      /\ base64ToUint8Array (signature env') = Ok sb
      /\ verify_accepts pk sb (signing_input (kid env') (cek env') (payload env')) = true).
Proof.
  intros H. split; [|split].
  - intros kid' pk rk rid st2 out st3 Hne Hu.
    destruct (unsealCore_ok_inv _ _ _ _ _ _ _ _ Hu) as [pk' [_ [_ [_ [_ [_ [_ [Hs _]]]]]]]].
    simpl in Hs. unfold obj_get in Hs. simpl in Hs.
    destruct (String.eqb kid' skid) eqn:E; [apply String.eqb_eq in E; contradiction|].
    destruct (is_proto_member kid'); discriminate Hs.
  - intros ctx' rk rid sks st2 out st3 Hne Hu.
    destruct (unsealCore_ok_inv _ _ _ _ _ _ _ _ Hu)
      as [_ [_ [_ [_ [_ [enc [ci [_ [_ [_ [_ [_ [Hp [Hci [Hc _]]]]]]]]]]]]]]].
    destruct (sealCore_commitment_ok _ _ _ _ _ _ _ _ H) as [enc0 [ci0 [Hp0 [Hci0 Hc0]]]].
    simpl in Hp, Hc. rewrite Hp in Hp0. injection Hp0 as Henc. subst enc0.
    rewrite Hci in Hci0. injection Hci0 as Hci'. subst ci0.
    apply Hne. now rewrite Hc, Hc0.
  - intros env' rk rid sks st2 out st3 Hu.
    destruct (unsealCore_ok_inv _ _ _ _ _ _ _ _ Hu) as [pk [sb [_ [_ [_ [_ [_ [Hs [Hsb [Hacc _]]]]]]]]]].
    eauto.
Qed.

End ClaimsLaws.

(** ** The sample platform satisfies the laws *)

Section ToyLaws.

Lemma toy_digest_length bs : length (Toy.digest bs) = 32.
Proof. unfold Toy.digest. now rewrite length_map, length_seq. Qed.

Lemma toy_pad_length w k : length (Toy.pad w k) = w.
Proof. unfold Toy.pad. rewrite length_firstn, length_app, repeat_length. lia. Qed.

Lemma toy_pad_idem w k : Toy.pad w (Toy.pad w k) = Toy.pad w k.
Proof.
  set (l := Toy.pad w k). unfold Toy.pad at 1.
  apply firstn_app_exact. apply toy_pad_length.
Qed.

Lemma toy_laws : PlatformLaws Toy.toy_platform.
Proof.
  constructor.
  - intros k iv pt. change (length (Toy.aes_encrypt k iv pt) = length pt + 16).
    unfold Toy.aes_encrypt. rewrite length_app, length_firstn, toy_digest_length. lia.
  - intros k iv pt. change (Toy.aes_decrypt k iv (Toy.aes_encrypt k iv pt) = Some pt).
    unfold Toy.aes_decrypt, Toy.aes_encrypt.
    rewrite length_app, length_firstn, toy_digest_length.
    change (Init.Nat.min 16 32) with 16.
    destruct (Nat.ltb_spec (length pt + 16) 16); [lia|].
    replace (length pt + 16 - 16) with (length pt) by lia.
    rewrite firstn_app_exact by reflexivity. rewrite skipn_app_exact by reflexivity.
    replace (bytes_eqb _ _) with true by (symmetry; apply bytes_eqb_eq; reflexivity).
    reflexivity.
  - intros c a b. change (Toy.ec_pub c b) with (Toy.pad (2 * coord_len c) b).
    change (repeat (byte_of_N ((Toy.sum_bytes (Toy.pad (2 * coord_len c) a)
                                + Toy.sum_bytes (Toy.pad (2 * coord_len c) b)) mod 256))
                   (coord_len c)
            = repeat (byte_of_N ((Toy.sum_bytes (Toy.pad (2 * coord_len c) b)
                                + Toy.sum_bytes (Toy.pad (2 * coord_len c) a)) mod 256))
                   (coord_len c)).
    now rewrite N.add_comm.
  - intros c a q. apply repeat_length.
  - intros c k. change (S (length (Toy.pad (2 * coord_len c) k)) = 1 + 2 * coord_len c).
    rewrite toy_pad_length. reflexivity.
  - intros c k.
    change (Toy.ec_import c (Byte.x04 :: Toy.pad (2 * coord_len c) (Toy.pad (2 * coord_len c) k))
            = Some (Toy.pad (2 * coord_len c) k)).
    rewrite toy_pad_idem. unfold Toy.ec_import. rewrite toy_pad_length, Nat.eqb_refl.
    reflexivity.
  - intros c bs k. change (Toy.ec_import c bs = Some k -> length bs = 1 + coord_len c \/ length bs = 1 + 2 * coord_len c).
    unfold Toy.ec_import. destruct bs as [|b rest]; [discriminate|].
    destruct (Byte.eqb b Byte.x04 && Nat.eqb (length rest) (2 * coord_len c)) eqn:E;
      [|discriminate].
    intros _. apply andb_prop in E as [_ E]. apply Nat.eqb_eq in E.
    right. simpl. now rewrite E.
Qed.

Lemma toy_keypair_laws : KeyPairLaws Toy.toy_platform.
Proof.
  constructor.
  - intros d seed m c. change (Some (Toy.digest d ++ m) = Some c -> Toy.oaep_decrypt d c = Some m).
    intros H. assert (Hc : c = Toy.digest d ++ m) by congruence. subst c.
    unfold Toy.oaep_decrypt.
    rewrite length_app, toy_digest_length, firstn_app_exact, skipn_app_exact
      by apply toy_digest_length.
    replace (bytes_eqb _ _) with true by (symmetry; apply bytes_eqb_eq; reflexivity).
    reflexivity.
  - intros pk seed m c. change (Some (Toy.digest pk ++ m) = Some c -> length m < length c).
    intros H. assert (Hc : c = Toy.digest pk ++ m) by congruence. subst c.
    rewrite length_app, toy_digest_length. lia.
  - intros s salt m. apply bytes_eqb_eq. reflexivity.
  - intros c s nonce m. apply bytes_eqb_eq. reflexivity.
Qed.

Lemma toy_buffer_from_base64 bs : Toy.buffer_from (base64 bs) = bs.
Proof. unfold Toy.buffer_from. now rewrite base64_roundtrip. Qed.

End ToyLaws.

(** ** Round trips, recipient ids and key kinds of the sealing and unsealing
    code, and the envelope format without commitment *)

Section Roundtrip.
Context {P : Platform} {L : PlatformLaws P} {K : KeyPairLaws P}.

Lemma obj_lookup_entries_in {V} (o : JsObj V) r v :
  obj_lookup o r = Some v -> In (r, v) (obj_entries o).
Proof.
  intros Hr. apply Permutation_in with (l := o); [symmetry; apply obj_entries_perm|].
  clear -Hr. induction o as [|[k w] o IH]; simpl in *; [discriminate|].
  destruct (String.eqb r k) eqn:E; [apply String.eqb_eq in E; subst; left; congruence|].
  right. auto.
Qed.

Lemma obj_entries_nodup {V} (o : JsObj V) :
  NoDup (map fst o) -> NoDup (map fst (obj_entries o)).
Proof.
  intros Hnd. eapply Permutation_NoDup; [|exact Hnd]. apply Permutation_map.
  symmetry. apply obj_entries_perm.
Qed.

Lemma payload_split (iv c : bytes) :
  length iv = 12 ->
  subarray (iv ++ c) 0%Z (Some 12%Z) = iv /\ subarray (iv ++ c) 12%Z None = c.
Proof.
  intros Liv.
  rewrite subarray_prefix, subarray_suffix by (rewrite length_app; lia).
  change (Z.to_nat 12) with 12.
  now rewrite firstn_app_exact, skipn_app_exact by exact Liv.
Qed.

(** A signature made by [signEnvelope] is accepted under the matching public key. *)
Lemma signEnvelope_accepts data sk pk st s st1 :
  signEnvelope data sk st = (Ok s, st1) -> signing_pair sk pk ->
  exists sg, s = base64 sg /\ verify_accepts pk sg (text_encode (canonicalize data)) = true.
Proof.
  intros H Hp. destruct (signEnvelope_inv _ _ _ _ _ H) as [sg [-> [_ Hk]]].
  exists sg. split; [reflexivity|].
  destruct Hp as [s0|c0 s0];
    destruct Hk as [[m [salt [Hk ->]]] | [c [m [nonce [Hk ->]]]]]; try discriminate Hk;
    injection Hk; intros; subst; simpl.
  - apply rsa_pss_correct.
  - apply ecdsa_correct.
Qed.

Lemma verifyEnvelope_accepts data s sb pk st :
  base64ToUint8Array s = Ok sb -> verify_accepts pk sb (text_encode (canonicalize data)) = true ->
  exists st1, verifyEnvelope data s pk st = (Ok true, st1).
Proof.
  intros Hs Ha. unfold verifyEnvelope, bind, lift. rewrite Hs.
  destruct pk; simpl in Ha; try discriminate Ha;
    unfold verifyEnvelopeWithRSA, verifyEnvelopeWithEC, subtle_verify_rsa_pss,
      subtle_verify_ecdsa, bind, emit, ret; simpl; rewrite Ha; eauto.
Qed.

(** [decryptCEK] with the private key undoes [encryptCEK] under the public
    key, for an [RSA-OAEP] key and for an [ECDH] key on P-256. *)
Lemma decryptCEK_pair_ok raw pub priv st out st' :
  recipient_pair pub priv -> length raw = 32 ->
  encryptCEK (AesKey raw) pub st = (Ok out, st') ->
  forall st2, exists st3, decryptCEK (JsOwn (base64 out)) priv st2 = (Ok (AesKey raw), st3).
Proof.
  intros Hp Lraw He st2.
  assert (Hok : aes_key_length_ok raw = true) by (unfold aes_key_length_ok; now rewrite Lraw).
  destruct Hp as [d|b].
  - unfold encryptCEK, encryptCEKWithRSA, subtle_exportKey_raw, subtle_encrypt_rsa_oaep,
      bind, emit, draw, ret, lift_opt in He. simpl in He.
    destruct (rsa_oaep_encrypt _ _ _) as [c|] eqn:Hc; [|discriminate He].
    injection He as <- _. apply rsa_oaep_correct in Hc.
    unfold decryptCEK, bind, lift. simpl base64_of_val. rewrite base64_roundtrip. simpl.
    unfold decryptCEKWithRSA, subtle_decrypt_rsa_oaep, subtle_importKey_raw_aes,
      bind, emit, lift_opt, ret. simpl. rewrite Hc, Hok. eauto.
  - destruct (encryptCEK_ecdh_inv _ _ _ _ _ _ He) as [e [iv [Liv ->]]].
    now apply decryptCEK_p256_ok.
Qed.

(** The converse of [unsealCore_ok_inv]. *)
Lemma unsealCore_ok_intro sep env rk rid sks st sk st1 raw st2 enc ci out :
  obj_get sks (kid env) = JsOwn sk ->
  verifyEnvelope (envelope_json (kid env) (cek env) (payload env)) (signature env) sk st
    = (Ok true, st1) ->
  decryptCEK (obj_get (cek env) rid) rk st1 = (Ok (AesKey raw), st2) ->
  base64ToUint8Array (payload env) = Ok enc ->
  build_ctx_input (text_encode sep) enc = Ok ci ->
  base64ToUint8Array (ctx env) = Ok (sha256 ci) ->
  aes_gcm_decrypt raw (subarray enc 0%Z (Some 12%Z)) (subarray enc 12%Z None) = Some out ->
  exists st3, unsealCore sep env rk rid sks st = (Ok out, st3).
Proof.
  intros Hs Hv Hd Hp Hci Hx Ha.
  unfold unsealCore. cbv zeta. rewrite Hs. unfold bind at 1. rewrite Hv. cbn [negb].
  cbv iota. unfold bind at 1. rewrite Hd.
  unfold bind at 1, lift at 1. rewrite Hp.
  unfold bind at 1, lift at 1. rewrite Hci.
  unfold bind at 1, subtle_digest_sha256. unfold bind at 1, emit, ret. simpl.
  unfold bind at 1, lift at 1. rewrite Hx.
  assert (He : areUint8ArraysEqual (sha256 ci) (sha256 ci) = true)
    by now apply areUint8ArraysEqual_eq.
  rewrite He. simpl.
  unfold bind, subtle_decrypt_aes_gcm, bind, emit, lift_opt, ret. simpl. rewrite Ha. eauto.
Qed.

Lemma sealCore_unsealCore_ok sep pl sk skid rks st env st' pk r pub priv st2 :
  sealCore sep pl sk skid rks st = (Ok env, st') -> NoDup (map fst rks) ->
  obj_lookup rks r = Some pub -> r <> "__proto__"%string ->
  signing_pair sk pk -> recipient_pair pub priv ->
  kid env = skid /\
  exists st3, unsealCore sep env priv r [(skid, pk)] st2 = (Ok (plaintext_bytes pl), st3).
Proof.
  intros H Hnd Hr Hproto Hsp Hrp.
  destruct (sealCore_ok_inv _ _ _ _ _ _ _ _ H)
    as [raw [iv [st1 [st4 [ceks [st5 [ci [Lraw [Liv [Hc [Hkid [Hcek [Hpay [Hsig [Hci Hctx]]]]]]]]]]]]]]].
  split; [exact Hkid|].
  destruct (encrypt_ceks_in _ _ _ _ _ _ _ _ Hc (obj_entries_nodup _ Hnd)
              (obj_lookup_entries_in _ _ _ Hr) Hproto) as [st6 [out [st7 [He Hl]]]].
  rewrite <- Hcek in Hl. rewrite <- Hkid, <- Hcek in Hsig.
  destruct (signEnvelope_accepts _ _ _ _ _ _ Hsig Hsp) as [sg [Hs Ha]].
  assert (Hsb : base64ToUint8Array (signature env) = Ok sg) by (rewrite Hs; apply base64_roundtrip).
  destruct (verifyEnvelope_accepts _ _ _ _ st2 Hsb Ha) as [st8 Hv].
  destruct (decryptCEK_pair_ok _ _ _ _ _ _ Hrp Lraw He st8) as [st9 Hd].
  destruct (payload_split iv (aes_gcm_encrypt raw iv (plaintext_bytes pl)) Liv) as [H1 H2].
  eapply unsealCore_ok_intro.
  - rewrite Hkid. unfold obj_get. simpl. now rewrite String.eqb_refl.
  - exact Hv.
  - unfold obj_get. rewrite Hl. exact Hd.
  - rewrite Hpay. apply base64_roundtrip.
  - exact Hci.
  - rewrite Hctx. apply base64_roundtrip.
  - rewrite H1, H2. apply aes_gcm_roundtrip.
Qed.

End Roundtrip.

Section Keys.
Context {P : Platform}.

Lemma obj_lookup_in_fst {V} (o : JsObj V) j : obj_lookup o j <> None <-> In j (map fst o).
Proof.
  induction o as [|[k v] o IH]; simpl; [tauto|].
  destruct (String.eqb j k) eqn:E.
  - apply String.eqb_eq in E. subst. split; [auto | discriminate].
  - apply String.eqb_neq in E. rewrite IH. split; [auto|]. intros [->|]; [congruence | auto].
Qed.

Lemma obj_lookup_set_keys {V} (o : JsObj V) k v j :
  obj_lookup (obj_set o k v) j <> None
  <-> obj_lookup o j <> None \/ (j = k /\ k <> "__proto__"%string).
Proof.
  destruct (String.eqb j k) eqn:E.
  - apply String.eqb_eq in E. subst j.
    destruct (String.eqb k "__proto__") eqn:Ep.
    + apply String.eqb_eq in Ep. subst k. unfold obj_set.
      destruct (obj_lookup o "__proto__") eqn:Eo.
      * rewrite obj_lookup_update_same by congruence. split; [left; congruence | discriminate].
      * simpl. split; [tauto|]. intros [H|[_ H]]; congruence.
    + apply String.eqb_neq in Ep. rewrite obj_lookup_set_same by exact Ep. split; [|discriminate].
      intros _. right. auto.
  - apply String.eqb_neq in E. rewrite obj_lookup_set_other by congruence.
    split; [auto | intros [H|[H _]]; [exact H | congruence]].
Qed.

(** The own ids of the [cek] object [encrypt_ceks] fills. *)
Lemma encrypt_ceks_keys cek es acc st res st' j :
  encrypt_ceks cek es acc st = (Ok res, st') ->
  obj_lookup res j <> None
  <-> obj_lookup acc j <> None \/ (In j (map fst es) /\ j <> "__proto__"%string).
Proof.
  revert acc st. induction es as [|[k key] es IH]; intros acc st H; simpl in *.
  - unfold ret in H. inversion H; subst. tauto.
  - inv_bind H out st1 Hout. rewrite (IH _ _ H), obj_lookup_set_keys.
    split.
    + intros [[Ha|[-> Hk]]|[Hi Hj]]; auto.
    + intros [Ha|[[->|Hi] Hj]]; auto.
Qed.

Lemma sealCore_cek_keys_aux sep pl sk skid rks st env st' j :
  sealCore sep pl sk skid rks st = (Ok env, st') ->
  obj_lookup (cek env) j <> None <-> obj_lookup rks j <> None /\ j <> "__proto__"%string.
Proof.
  intros H.
  destruct (sealCore_ok_inv _ _ _ _ _ _ _ _ H)
    as [raw [iv [st1 [st4 [ceks [st5 [ci [_ [_ [Hc [_ [Hcek _]]]]]]]]]]]].
  rewrite Hcek, (encrypt_ceks_keys _ _ _ _ _ _ _ Hc), (obj_lookup_in_fst rks).
  assert (Hp : In j (map fst (obj_entries rks)) <-> In j (map fst rks)).
  { split; apply Permutation_in; apply Permutation_map;
      [|symmetry]; apply obj_entries_perm. }
  rewrite Hp. simpl. split; [intros [H0|H0]; [congruence | exact H0] | auto].
Qed.

End Keys.

Section Collect.
Context {P : Platform}.

Lemma map_fst_update {V} (o : JsObj V) k v : map fst (obj_update o k v) = map fst o.
Proof.
  induction o as [|[k' v'] o IH]; simpl; [reflexivity|].
  destruct (String.eqb k k'); simpl; congruence.
Qed.

Lemma keymap_set_spec o k v o' :
  Sealer.keymap_set o k v = Ok o' ->
  NoDup (map fst (Sealer.km_own o)) -> obj_lookup (Sealer.km_own o) "__proto__" = None ->
  NoDup (map fst (Sealer.km_own o')) /\ obj_lookup (Sealer.km_own o') "__proto__" = None
  /\ forall j, obj_lookup (Sealer.km_own o') j
               = if String.eqb j k then (if String.eqb k "__proto__" then None else Some v)
                 else obj_lookup (Sealer.km_own o) j.
Proof.
  intros H Hnd Hp. unfold Sealer.keymap_set in H.
  destruct (obj_lookup (Sealer.km_own o) k) as [w|] eqn:Ek.
  - injection H as <-. simpl.
    assert (Hk : k <> "__proto__"%string) by (intros ->; congruence).
    rewrite map_fst_update. split; [exact Hnd|]. split.
    + rewrite obj_lookup_update_other by exact Hk. exact Hp.
    + intros j. destruct (String.eqb j k) eqn:E.
      * apply String.eqb_eq in E. subst j. apply String.eqb_neq in Hk. rewrite Hk.
        apply obj_lookup_update_same. congruence.
      * apply String.eqb_neq in E. apply obj_lookup_update_other. congruence.
  - destruct (String.eqb k "__proto__") eqn:Ep.
    + injection H as <-. simpl. split; [exact Hnd|]. split; [exact Hp|].
      intros j. destruct (String.eqb j k) eqn:E; [|reflexivity].
      apply String.eqb_eq in E, Ep. subst. exact Hp.
    + destruct (_ && _); [discriminate H|]. injection H as <-. simpl.
      apply String.eqb_neq in Ep. split; [|split].
      * rewrite map_app. simpl. apply NoDup_app; [exact Hnd | constructor; [intros []|constructor] |].
        intros x Hx [<-|[]]. apply obj_lookup_in_fst in Hx. contradiction.
      * rewrite obj_lookup_app, Hp. cbn [obj_lookup].
        destruct (String.eqb "__proto__" k) eqn:E; [apply String.eqb_eq in E; congruence | reflexivity].
      * intros j. rewrite obj_lookup_app. cbn [obj_lookup].
        destruct (String.eqb j k) eqn:E.
        -- apply String.eqb_eq in E. subst. now rewrite Ek.
        -- destruct (obj_lookup _ j); reflexivity.
Qed.

Lemma collect_recipients_spec known kids o o' :
  Sealer.collect_recipients known kids o = Ok o' ->
  NoDup (map fst (Sealer.km_own o)) -> obj_lookup (Sealer.km_own o) "__proto__" = None ->
  (forall j v, obj_lookup (Sealer.km_own o) j = Some v -> obj_lookup known j = Some v) ->
  NoDup (map fst (Sealer.km_own o')) /\ obj_lookup (Sealer.km_own o') "__proto__" = None
  /\ (forall j v, obj_lookup (Sealer.km_own o') j = Some v -> obj_lookup known j = Some v)
  /\ (forall j, obj_lookup (Sealer.km_own o') j <> None
                <-> obj_lookup (Sealer.km_own o) j <> None \/ (In j kids /\ j <> "__proto__"%string)).
Proof.
  revert o. induction kids as [|kid rest IH]; intros o H Hnd Hp Hv; simpl in H.
  - injection H as <-. split; [exact Hnd|]. split; [exact Hp|]. split; [exact Hv|].
    intros j. split; [auto | intros [H|[[] _]]; exact H].
  - destruct (obj_lookup known kid) as [key|] eqn:Ek; [|discriminate H].
    destruct (Sealer.keymap_set o kid key) as [o1|e] eqn:E1; simpl in H; [|discriminate H].
    destruct (keymap_set_spec _ _ _ _ E1 Hnd Hp) as [Hnd1 [Hp1 Hl1]].
    assert (Hv1 : forall j v, obj_lookup (Sealer.km_own o1) j = Some v -> obj_lookup known j = Some v).
    { intros j v Hj. rewrite Hl1 in Hj. destruct (String.eqb j kid) eqn:E.
      - apply String.eqb_eq in E. subst. destruct (String.eqb kid _); [discriminate|congruence].
      - auto. }
    destruct (IH o1 H Hnd1 Hp1 Hv1) as [Hnd2 [Hp2 [Hv2 Hk2]]].
    split; [exact Hnd2|]. split; [exact Hp2|]. split; [exact Hv2|].
    intros j. rewrite Hk2, Hl1. cbn [In].
    destruct (String.eqb j kid) eqn:E.
    + apply String.eqb_eq in E. subst j.
      destruct (String.eqb kid "__proto__") eqn:Ep.
      * apply String.eqb_eq in Ep. subst kid. rewrite Hp. intuition congruence.
      * apply String.eqb_neq in Ep. intuition congruence.
    + apply String.eqb_neq in E. intuition congruence.
Qed.

End Collect.

Section SealerRuns.
Context {P : Platform}.

Lemma seal_inv sep (s : Sealer.Sealer) pl kids st env st' :
  Sealer.seal sep s pl kids st = (Ok env, st') ->
  exists o, Sealer.collect_recipients (Sealer.recipientKeys s) kids (Sealer.mkKeyMapObj [] false)
            = Ok o
  /\ sealCore sep pl (Sealer.privateKey s) (Sealer.privateKid s) (Sealer.km_own o) st
     = (Ok env, st').
Proof.
  unfold Sealer.seal. intros H. inv_bind H o st1 Ho. apply lift_inv in Ho as [Ho ->]. eauto.
Qed.

Lemma seal_recipients sep (s : Sealer.Sealer) pl kids st env st' :
  Sealer.seal sep s pl kids st = (Ok env, st') ->
  exists o, sealCore sep pl (Sealer.privateKey s) (Sealer.privateKid s) (Sealer.km_own o) st
            = (Ok env, st')
  /\ NoDup (map fst (Sealer.km_own o))
  /\ (forall j v, obj_lookup (Sealer.km_own o) j = Some v ->
                  obj_lookup (Sealer.recipientKeys s) j = Some v)
  /\ (forall j, obj_lookup (Sealer.km_own o) j <> None <-> In j kids /\ j <> "__proto__"%string).
Proof.
  intros H. destruct (seal_inv _ _ _ _ _ _ _ H) as [o [Hc Hs]].
  destruct (collect_recipients_spec _ _ _ _ Hc) as [Hnd [_ [Hv Hk]]];
    [constructor | reflexivity | intros j v Hj; discriminate Hj |].
  exists o. split; [exact Hs|]. split; [exact Hnd|]. split; [exact Hv|].
  intros j. rewrite Hk. simpl. intuition congruence.
Qed.

End SealerRuns.

Section ExtraTheorems.
Context {P : Platform} {L : PlatformLaws P} {K : KeyPairLaws P}.

(** X1: for an RSA-PSS or ECDSA sender and a recipient whose key is RSA-OAEP
    or ECDH on P-256, an envelope [sealCore] produced unseals: [unsealCore]
    with the recipient's private key and id and [{senderKid: public key}]
    returns the plaintext bytes (for a recipient id other than [__proto__]). *)
Theorem unsealCore_sealCore_roundtrip sep pl sk skid rks st env st' pk r pub priv st2 :
  sealCore sep pl sk skid rks st = (Ok env, st') -> NoDup (map fst rks) ->
  obj_lookup rks r = Some pub -> r <> "__proto__"%string ->
  signing_pair sk pk -> recipient_pair pub priv ->
  exists st3, unsealCore sep env priv r [(skid, pk)] st2 = (Ok (plaintext_bytes pl), st3).
Proof.
  intros H Hnd Hr Hp Hsp Hrp.
  exact (proj2 (sealCore_unsealCore_ok _ _ _ _ _ _ _ _ _ _ _ _ _ H Hnd Hr Hp Hsp Hrp)).
Qed.

(** X2: an envelope sealed by a sealer's [seal] for a list of ids unseals
    with an unsealer's [unseal] whose id is one of them (not [__proto__]),
    whose private key matches the sealer's key for that id (RSA-OAEP, or ECDH
    on P-256) and whose sender keys map the sealer's id to its public key. *)
Theorem unseal_seal_roundtrip sep (s : Sealer.Sealer) (u : Unsealer.Unsealer) pl kids st env st'
    pub pk st2 :
  Sealer.seal sep s pl kids st = (Ok env, st') ->
  In (Unsealer.privateKid u) kids -> Unsealer.privateKid u <> "__proto__"%string ->
  obj_lookup (Sealer.recipientKeys s) (Unsealer.privateKid u) = Some pub ->
  recipient_pair pub (Unsealer.privateKey u) ->
  obj_lookup (Unsealer.senderKeys u) (Sealer.privateKid s) = Some pk ->
  signing_pair (Sealer.privateKey s) pk ->
  exists st3, Unsealer.unseal sep u env st2 = (Ok (plaintext_bytes pl), st3).
Proof.
  intros H Hin Hp Hr Hrp Hs Hsp.
  destruct (seal_recipients _ _ _ _ _ _ _ H) as [o [Hsc [Hnd [Hv Hk]]]].
  assert (Ho : obj_lookup (Sealer.km_own o) (Unsealer.privateKid u) = Some pub).
  { destruct (obj_lookup (Sealer.km_own o) (Unsealer.privateKid u)) as [v|] eqn:E.
    - rewrite (Hv _ _ E) in Hr. exact Hr.
    - exfalso. apply (proj2 (Hk _) (conj Hin Hp)). exact E. }
  destruct (sealCore_unsealCore_ok _ _ _ _ _ _ _ _ _ _ _ _ st2 Hsc Hnd Ho Hp Hsp Hrp)
    as [Hkid Hu].
  unfold Unsealer.unseal. rewrite Hkid, Hs. exact Hu.
Qed.

End ExtraTheorems.

Section SealerIds.
Context {P : Platform}.

(** X3: the [cek] object of an envelope [sealCore] produced has an own entry
    exactly for the ids of [recipientKeys] other than [__proto__]. *)
Theorem sealCore_cek_ids sep pl sk skid rks st env st' j :
  sealCore sep pl sk skid rks st = (Ok env, st') ->
  obj_lookup (cek env) j <> None <-> obj_lookup rks j <> None /\ j <> "__proto__"%string.
Proof. apply sealCore_cek_keys_aux. Qed.

(** X4: the [cek] object of an envelope [seal] produced has an own entry
    exactly for the requested recipient ids other than [__proto__]. *)
Theorem seal_cek_ids sep (s : Sealer.Sealer) pl kids st env st' j :
  Sealer.seal sep s pl kids st = (Ok env, st') ->
  obj_lookup (cek env) j <> None <-> In j kids /\ j <> "__proto__"%string.
Proof.
  intros H. destruct (seal_recipients _ _ _ _ _ _ _ H) as [o [Hsc [_ [_ Hk]]]].
  rewrite (sealCore_cek_keys_aux _ _ _ _ _ _ _ _ j Hsc), Hk. intuition.
Qed.

End SealerIds.

Section Kinds.
Context {P : Platform}.

Lemma encryptCEK_kind cek key st out st' :
  encryptCEK cek key st = (Ok out, st') -> is_rsa_recipient key || is_ec_recipient key = true.
Proof.
  unfold encryptCEK, is_rsa_recipient, is_ec_recipient.
  destruct (String.eqb (algorithm_name key) "RSA-OAEP"); [reflexivity|].
  destruct (String.eqb (algorithm_name key) "ECDH"); [reflexivity|].
  unfold throw. intros H. discriminate H.
Qed.

Lemma encrypt_ceks_kinds cek es acc st res st' :
  encrypt_ceks cek es acc st = (Ok res, st') ->
  Forall (fun kv => is_rsa_recipient (snd kv) || is_ec_recipient (snd kv) = true) es.
Proof.
  revert acc st. induction es as [|[k key] es IH]; intros acc st H; simpl in H; [constructor|].
  inv_bind H out st1 Hout. constructor; [exact (encryptCEK_kind _ _ _ _ _ Hout) | eauto].
Qed.

(** X5: when [sealCore] succeeds, either the sender key is RSA-PSS and every
    recipient key RSA-OAEP, or the sender key is ECDSA and every recipient key
    ECDH. *)
Theorem sealCore_key_kinds sep pl sk skid rks st env st' :
  sealCore sep pl sk skid rks st = (Ok env, st') ->
  (algorithm_name sk = "RSA-PSS"%string
   /\ Forall (fun kv => algorithm_name (snd kv) = "RSA-OAEP"%string) rks)
  \/ (algorithm_name sk = "ECDSA"%string
      /\ Forall (fun kv => algorithm_name (snd kv) = "ECDH"%string) rks).
Proof.
  intros H.
  destruct (sealCore_ok_inv _ _ _ _ _ _ _ _ H)
    as [raw [iv [st1 [st4 [ceks [st5 [ci [_ [_ [Hc [_ [_ [_ [Hsig _]]]]]]]]]]]]]].
  pose proof (encrypt_ceks_kinds _ _ _ _ _ _ Hc) as Hk.
  rewrite Forall_forall in Hk.
  assert (Hk' : forall kv, In kv rks -> is_rsa_recipient (snd kv) || is_ec_recipient (snd kv) = true).
  { intros kv Hkv. apply Hk. eapply Permutation_in; [symmetry; apply obj_entries_perm | exact Hkv]. }
  unfold sealCore in H.
  destruct (Nat.eqb _ 0); [discriminate H|].
  destruct (existsb _ _) eqn:Hmix; [discriminate H|].
  assert (Hm : forall kv, In kv rks ->
                 (is_rsa_sender sk && is_ec_recipient (snd kv)
                  || is_ec_sender sk && is_rsa_recipient (snd kv)) = false).
  { intros kv Hkv. destruct (_ || _) eqn:E; [|reflexivity]. exfalso.
    assert (Ht : existsb (fun recipientKey =>
                   is_rsa_sender sk && is_ec_recipient recipientKey
                   || is_ec_sender sk && is_rsa_recipient recipientKey) (obj_values rks) = true).
    { apply existsb_exists. exists (snd kv). split; [|exact E].
      unfold obj_values. apply in_map.
      eapply Permutation_in; [symmetry; apply obj_entries_perm | exact Hkv]. }
    congruence. }
  destruct (signEnvelope_inv _ _ _ _ _ Hsig)
    as [sg [_ [_ [[m [salt [-> _]]] | [c [m [nonce [-> _]]]]]]]]; [left | right];
    (split; [reflexivity|]); apply Forall_forall; intros kv Hkv;
    specialize (Hk' kv Hkv); specialize (Hm kv Hkv);
    unfold is_rsa_sender, is_ec_sender, is_rsa_recipient, is_ec_recipient in *;
    cbn [algorithm_name] in Hm;
    destruct (String.eqb (algorithm_name (snd kv)) "RSA-OAEP") eqn:E1;
    destruct (String.eqb (algorithm_name (snd kv)) "ECDH") eqn:E2;
    simpl in Hk', Hm; try discriminate; apply String.eqb_eq; assumption.
Qed.

End Kinds.

Section Buffers.

Lemma areBuffersEqual_loop_iff (a b : bytes) i n :
  areBuffersEqual_loop a b i n = true
  <-> forall k, i <= k < i + n -> nth_error a k = nth_error b k.
Proof.
  revert i. induction n as [|n IH]; intros i; simpl.
  - split; [intros _ k Hk; lia | reflexivity].
  - assert (Hstep : (forall k, i <= k < i + S n -> nth_error a k = nth_error b k)
                    <-> nth_error a i = nth_error b i
                        /\ forall k, S i <= k < S i + n -> nth_error a k = nth_error b k).
    { split.
      - intros H. split; [apply H; lia | intros k Hk; apply H; lia].
      - intros [H0 H] k Hk. destruct (Nat.eq_dec k i) as [->|Hne]; [exact H0 | apply H; lia]. }
    rewrite Hstep, <- IH.
    destruct (nth_error a i) as [x|], (nth_error b i) as [y|].
    + destruct (Byte.eqb x y) eqn:E.
      * apply Byte.byte_dec_bl in E. subst. tauto.
      * split; [discriminate | intros [H _]]. injection H as ->.
        assert (Byte.eqb y y = true) by (apply Byte.byte_dec_lb; reflexivity). congruence.
    + split; [discriminate | intros [H _]; discriminate].
    + split; [discriminate | intros [H _]; discriminate].
    + tauto.
Qed.

(** X6: [areBuffersEqual] returns [true] exactly when the two buffers hold
    the same bytes. *)
Theorem areBuffersEqual_iff (a b : bytes) : areBuffersEqual a b = true <-> a = b.
Proof.
  unfold areBuffersEqual. destruct (Nat.eqb (length a) (length b)) eqn:E; simpl.
  - apply Nat.eqb_eq in E. rewrite areBuffersEqual_loop_iff. split.
    + intros H. apply nth_error_ext. intros k.
      destruct (Nat.lt_ge_cases k (length a)) as [Hk|Hk]; [apply H; lia|].
      rewrite (proj2 (nth_error_None a k)), (proj2 (nth_error_None b k)) by lia. reflexivity.
    + intros -> k _. reflexivity.
  - split; [discriminate|]. intros ->. now rewrite Nat.eqb_refl in E.
Qed.

End Buffers.

Section Payload.
Context {P : Platform} {L : PlatformLaws P}.

(** X7: [decryptPayload] of [unsealer/helpers.ts], given the base64 text of
    what [encryptPayload] produced and the same AES key, returns the
    plaintext bytes. *)
Theorem decryptPayload_encryptPayload pl raw st ep st1 st2 :
  encryptPayload pl (AesKey raw) st = (Ok ep, st1) ->
  exists st3, decryptPayload (base64 ep) (AesKey raw) st2 = (Ok (plaintext_bytes pl), st3).
Proof.
  intros H. destruct (encryptPayload_inv _ _ _ _ _ H) as [iv [Liv ->]].
  destruct (payload_split iv (aes_gcm_encrypt raw iv (plaintext_bytes pl)) Liv) as [H1 H2].
  unfold decryptPayload, bind, lift. rewrite base64_roundtrip. cbv zeta. rewrite H1, H2.
  unfold subtle_decrypt_aes_gcm, bind, emit, lift_opt, ret. simpl.
  rewrite aes_gcm_roundtrip. eauto.
Qed.

End Payload.

Section Raising.
Context {P : Platform}.

Lemma ro_ret Q {A} (a : A) : raises_only Q (ret a).
Proof. intros st e st' H. discriminate H. Qed.

Lemma ro_throw (Q : JsError -> Prop) {A} e : Q e -> raises_only Q (A := A) (throw e).
Proof. intros He st e' st' H. now inversion H; subst. Qed.

Lemma ro_emit Q ev : raises_only Q (emit ev).
Proof. intros st e st' H. discriminate H. Qed.

Lemma ro_draw Q n : raises_only Q (draw n).
Proof. intros st e st' H. discriminate H. Qed.

Lemma ro_lift (Q : JsError -> Prop) {A} (r : result A) :
  (forall e, r = Err e -> Q e) -> raises_only Q (lift r).
Proof. intros Hr st e st' H. inversion H; subst. auto. Qed.

Lemma ro_lift_opt (Q : JsError -> Prop) {A} (o : option A) e :
  Q e -> raises_only Q (lift_opt o e).
Proof. intros He st e' st' H. unfold lift_opt in H. destruct o; inversion H; subst; auto. Qed.

Lemma ro_bind Q {A B} (m : M A) (k : A -> M B) :
  raises_only Q m -> (forall a, raises_only Q (k a)) -> raises_only Q (bind m k).
Proof.
  intros Hm Hk st e st' H. unfold bind in H.
  destruct (m st) as [[a|e0] st1] eqn:E; [eapply Hk; exact H|].
  inversion H; subst. eapply Hm; exact E.
Qed.

End Raising.

Ltac ro_step :=
  match goal with
  | |- raises_only _ (bind _ _) => apply ro_bind; [|intros ?]
  | |- raises_only _ (ret _) => apply ro_ret
  | |- raises_only _ (emit _) => apply ro_emit
  | |- raises_only _ (draw _) => apply ro_draw
  | |- raises_only _ (throw _) => apply ro_throw
  | |- raises_only _ (lift_opt _ _) => apply ro_lift_opt
  | |- raises_only _ (lift _) => apply ro_lift; intros ? ?
  | |- raises_only _ (match ?x with _ => _ end) => destruct x
  | |- raises_only _ (if ?b then _ else _) => destruct b
  | |- raises_only _ (let _ := _ in _) => cbv zeta
  end.

Section LegacyRuns.
Context {P : Platform}.

(** What a successful legacy [sealCore] has computed. *)
Lemma legacy_sealCore_ok_inv pl sk skid rks st env st' :
  Legacy.sealCore pl sk skid rks st = (Ok env, st') ->
  exists raw iv st1 st2 ceks,
    length raw = 32 /\ length iv = 12
    /\ encrypt_ceks (AesKey raw) (obj_entries rks) [] st1 = (Ok ceks, st2)
    /\ Legacy.kid env = skid /\ Legacy.cek env = ceks
    /\ Legacy.payload env = base64 (iv ++ aes_gcm_encrypt raw iv (plaintext_bytes pl))
    /\ signEnvelope (Legacy.envelope_json ceks (Legacy.payload env)) sk st2
       = (Ok (Legacy.signature env), st').
Proof.
  unfold Legacy.sealCore.
  destruct (Nat.eqb _ 0); [intros H; discriminate H|].
  destruct (existsb _ _); [intros H; discriminate H|].
  intros H. inv_bind H k st0 Hg. apply generateCEK_inv in Hg as [raw [-> Lraw]].
  inv_bind H ep st1 Hep. apply encryptPayload_inv in Hep as [iv [Liv ->]].
  inv_bind H ceks st2 Hceks.
  inv_bind H sg st3 Hsig. unfold ret in H. inversion H; subst. simpl.
  exists raw, iv, st1, st2, ceks. repeat split; auto.
Qed.

Lemma base64_nonempty (bs : bytes) : bs <> [] -> base64 bs <> ""%string.
Proof.
  intros Hne. unfold base64.
  destruct bs as [|x [|y [|z r]]]; [congruence| | |]; simpl; discriminate.
Qed.

(** A CEK [encryptCEK] produces for a recipient key pair is never empty. *)
Lemma encryptCEK_pair_nonempty {K : KeyPairLaws P} {L : PlatformLaws P}
    raw pub priv st out st' :
  recipient_pair pub priv -> length raw = 32 ->
  encryptCEK (AesKey raw) pub st = (Ok out, st') -> out <> [].
Proof.
  intros Hp Lraw He. destruct Hp as [d|b].
  - unfold encryptCEK, encryptCEKWithRSA, subtle_exportKey_raw, subtle_encrypt_rsa_oaep,
      bind, emit, draw, ret, lift_opt in He. simpl in He.
    destruct (rsa_oaep_encrypt _ _ _) as [c|] eqn:Hc; [|discriminate He].
    injection He as <- _. apply rsa_oaep_expands in Hc. intros ->. simpl in Hc. lia.
  - destruct (encryptCEK_ecdh_inv _ _ _ _ _ _ He) as [e [iv [Liv ->]]].
    intros H. apply (f_equal (@List.length byte)) in H.
    rewrite length_app, ec_export_length in H. simpl in H. lia.
Qed.

End LegacyRuns.

Section LegacyBuffer.
Context {P : Platform}.
Variable bf : string -> bytes.
Hypothesis bf_base64 : forall bs, bf (base64 bs) = bs.

Lemma legacy_decryptCEK_base64 out rk st :
  Legacy.decryptCEK bf (JsOwn (base64 out)) rk st = decryptCEK (JsOwn (base64 out)) rk st.
Proof.
  unfold Legacy.decryptCEK, decryptCEK. cbn [Legacy.buffer_of_val base64_of_val].
  rewrite bf_base64, base64_roundtrip. reflexivity.
Qed.

Lemma legacy_verifyEnvelope_accepts {K : KeyPairLaws P} data sg pk st :
  verify_accepts pk sg (text_encode (canonicalize data)) = true ->
  exists st1, Legacy.verifyEnvelope bf data (base64 sg) pk st = (Ok true, st1).
Proof.
  intros Ha. unfold Legacy.verifyEnvelope. cbv zeta. rewrite bf_base64.
  destruct pk; simpl in Ha; try discriminate Ha;
    unfold verifyEnvelopeWithRSA, verifyEnvelopeWithEC, subtle_verify_rsa_pss,
      subtle_verify_ecdsa, bind, emit, ret; simpl; rewrite Ha; eauto.
Qed.

Lemma legacy_decryptPayload_ok {L : PlatformLaws P} raw iv pt st :
  length iv = 12 ->
  exists st1, Legacy.decryptPayload bf (base64 (iv ++ aes_gcm_encrypt raw iv pt)) (AesKey raw) st
              = (Ok pt, st1).
Proof.
  intros Liv. destruct (payload_split iv (aes_gcm_encrypt raw iv pt) Liv) as [H1 H2].
  unfold Legacy.decryptPayload. rewrite bf_base64. cbv zeta. rewrite H1, H2.
  unfold subtle_decrypt_aes_gcm, bind, emit, lift_opt, ret. simpl.
  rewrite aes_gcm_roundtrip. eauto.
Qed.

Lemma legacy_decryptCEK_not_no_cek v rk : raises_only not_no_cek (Legacy.decryptCEK bf v rk).
Proof.
  unfold Legacy.decryptCEK, Legacy.buffer_of_val, decryptCEKWithRSA, decryptCEKWithECDH,
    subtle_decrypt_rsa_oaep, subtle_importKey_raw_aes, subtle_importKey_raw_ecdh,
    subtle_deriveKey_ecdh, subtle_unwrapKey_raw_aes_gcm.
  repeat ro_step; unfold not_no_cek; try congruence;
    try (destruct v; congruence).
Qed.

Lemma legacy_decryptPayload_not_no_cek s k : raises_only not_no_cek (Legacy.decryptPayload bf s k).
Proof.
  unfold Legacy.decryptPayload, subtle_decrypt_aes_gcm.
  repeat ro_step; unfold not_no_cek; congruence.
Qed.

End LegacyBuffer.

Section LegacyTheorems.
Context {P : Platform}.
Variable bf : string -> bytes.
Hypothesis bf_base64 : forall bs, bf (base64 bs) = bs.

Lemma legacy_unsealCore_steps env rk rid sks pk st st1 k st2 :
  obj_get sks (Legacy.kid env) = JsOwn pk ->
  Legacy.verifyEnvelope bf (Legacy.envelope_json (Legacy.cek env) (Legacy.payload env))
    (Legacy.signature env) pk st = (Ok true, st1) ->
  Legacy.falsy (obj_get (Legacy.cek env) rid) = false ->
  Legacy.decryptCEK bf (obj_get (Legacy.cek env) rid) rk st1 = (Ok k, st2) ->
  Legacy.unsealCore bf env rk rid sks st = Legacy.decryptPayload bf (Legacy.payload env) k st2.
Proof.
  intros Hs Hv Hf Hd. unfold Legacy.unsealCore. rewrite Hs. cbv zeta.
  unfold bind at 1. rewrite Hv. cbn [negb]. cbv iota. rewrite Hf.
  unfold bind. rewrite Hd. reflexivity.
Qed.

(** X8: in the format without commitment, with a [Buffer] decoder that
    inverts base64 encoding, an envelope [sealCore] produced unseals with the
    [unsealCore] of that format for an RSA-OAEP or P-256 ECDH recipient,
    returning the plaintext bytes. *)
Theorem legacy_unseal_seal_roundtrip {L : PlatformLaws P} {K : KeyPairLaws P}
    pl sk skid rks st env st' pk r pub priv st2 :
  Legacy.sealCore pl sk skid rks st = (Ok env, st') -> NoDup (map fst rks) ->
  obj_lookup rks r = Some pub -> r <> "__proto__"%string ->
  signing_pair sk pk -> recipient_pair pub priv ->
  exists st3, Legacy.unsealCore bf env priv r [(skid, pk)] st2 = (Ok (plaintext_bytes pl), st3).
Proof.
  intros H Hnd Hr Hproto Hsp Hrp.
  destruct (legacy_sealCore_ok_inv _ _ _ _ _ _ _ H)
    as [raw [iv [st1 [st4 [ceks [Lraw [Liv [Hc [Hkid [Hcek [Hpay Hsig]]]]]]]]]]].
  destruct (encrypt_ceks_in _ _ _ _ _ _ _ _ Hc (obj_entries_nodup _ Hnd)
              (obj_lookup_entries_in _ _ _ Hr) Hproto) as [st6 [out [st7 [He Hl]]]].
  rewrite <- Hcek in Hl, Hsig.
  destruct (signEnvelope_accepts _ _ _ _ _ _ Hsig Hsp) as [sg [Hs Ha]].
  destruct (legacy_verifyEnvelope_accepts bf bf_base64 _ _ _ st2 Ha) as [st8 Hv].
  rewrite <- Hs in Hv.
  destruct (decryptCEK_pair_ok _ _ _ _ _ _ Hrp Lraw He st8) as [st9 Hd].
  rewrite <- (legacy_decryptCEK_base64 bf bf_base64) in Hd.
  assert (Hg : obj_get (Legacy.cek env) r = JsOwn (base64 out)) by (unfold obj_get; now rewrite Hl).
  rewrite <- Hg in Hd.
  rewrite (legacy_unsealCore_steps env priv r [(skid, pk)] pk st2 st8 (AesKey raw) st9).
  - rewrite Hpay. apply legacy_decryptPayload_ok; assumption.
  - rewrite Hkid. unfold obj_get. simpl. now rewrite String.eqb_refl.
  - exact Hv.
  - rewrite Hg. unfold Legacy.falsy. apply String.eqb_neq.
    apply base64_nonempty. eapply encryptCEK_pair_nonempty; eassumption.
  - exact Hd.
Qed.

(** X9: in the format without commitment, once the sender is known and the
    signature verifies, [unsealCore] fails with [No CEK found for recipient]
    exactly when the envelope's [cek] has no entry for the recipient id or an
    empty one; a [cek] id naming a member of [Object.prototype] fails otherwise. *)
Theorem legacy_unsealCore_no_cek env rk rid sks pk st st1 :
  obj_get sks (Legacy.kid env) = JsOwn pk ->
  Legacy.verifyEnvelope bf (Legacy.envelope_json (Legacy.cek env) (Legacy.payload env))
    (Legacy.signature env) pk st = (Ok true, st1) ->
  (fst (Legacy.unsealCore bf env rk rid sks st) = Err (Error "No CEK found for recipient")
   <-> obj_get (Legacy.cek env) rid = JsUndefined
       \/ obj_get (Legacy.cek env) rid = JsOwn ""%string).
Proof.
  intros Hs Hv. unfold Legacy.unsealCore. rewrite Hs. cbv zeta.
  unfold bind at 1. rewrite Hv. cbn [negb]. cbv iota.
  destruct (Legacy.falsy (obj_get (Legacy.cek env) rid)) eqn:Hf.
  - unfold throw. cbn [fst]. split; [intros _|reflexivity].
    destruct (obj_get (Legacy.cek env) rid) as [|s|]; cbn in Hf; try discriminate Hf; [now left|].
    apply String.eqb_eq in Hf. subst. now right.
  - split.
    + intros Hx. exfalso.
      destruct (bind (Legacy.decryptCEK bf (obj_get (Legacy.cek env) rid) rk)
                  (fun cek => Legacy.decryptPayload bf (Legacy.payload env) cek) st1)
        as [r st'] eqn:E.
      cbn [fst] in Hx. subst r.
      refine (ro_bind not_no_cek _ _ _ _ st1 _ st' E eq_refl);
        [apply legacy_decryptCEK_not_no_cek | intros; apply legacy_decryptPayload_not_no_cek].
    + intros [Hg|Hg]; rewrite Hg in Hf; discriminate Hf.
Qed.

(** X10: in the format without commitment the signature does not cover
    [kid]: replacing an envelope's [kid] by any id the sender keys map to the
    same key leaves the result of [unsealCore] unchanged. *)
Theorem legacy_unsealCore_kid_relabel env kid' rk rid sks st :
  obj_get sks kid' = obj_get sks (Legacy.kid env) ->
  Legacy.unsealCore bf
    (Legacy.mkEnvelope kid' (Legacy.cek env) (Legacy.payload env) (Legacy.signature env))
    rk rid sks st
  = Legacy.unsealCore bf env rk rid sks st.
Proof. intros Hk. unfold Legacy.unsealCore. cbn [Legacy.kid Legacy.cek Legacy.payload Legacy.signature]. now rewrite Hk. Qed.

End LegacyTheorems.

(** ** The properties on sample inputs *)

Module Witnesses.
Import Toy.

Ltac toy_hyp :=
  first [ solve [vm_compute; reflexivity] | solve [vm_compute; lia]
        | solve [apply NoDup_cons; [intros [] | constructor]]
        | solve [vm_compute; discriminate] ].

Lemma roundtrip_fails_p384_witness :
  ec_seal P_384 = (Ok (ec_env P_384), snd (ec_seal P_384))
  /\ NoDup (map fst (ec_recipients P_384))
  /\ obj_lookup (ec_recipients P_384) "bob"%string = Some (EcdhKey P_384 (ec_pub P_384 sk_rcpt))
  /\ "bob"%string <> "__proto__"%string
  /\ forall out st3, unsealCore sep0 (ec_env P_384) (EcdhKey P_384 sk_rcpt) "bob"
                       (ec_sender_keys P_384) st0 <> (Ok out, st3).
Proof.
  refine (conj _ (conj _ (conj _ (conj _ _)))); [toy_hyp | toy_hyp | toy_hyp | toy_hyp |].
  apply (@roundtrip_fails_p384 toy_platform toy_laws sep0 (PBytes [Byte.x01; Byte.x02; Byte.x03])
           (@EcdsaKey toy_platform P_384 sk_send) "sender" (ec_recipients P_384) st0 (ec_env P_384)
           (snd (ec_seal P_384)) "bob" (ec_pub P_384 sk_rcpt) sk_rcpt (ec_sender_keys P_384) st0);
    toy_hyp.
Defined.

Lemma sealCore_payload_length_witness :
  rsa_seal = (Ok rsa_env, snd rsa_seal)
  /\ exists bs, base64ToUint8Array (payload rsa_env) = Ok bs
     /\ length bs = 12 + length (plaintext_bytes (PText "hi")) + 16 /\ 28 <= length bs.
Proof.
  split; [toy_hyp|].
  apply (@sealCore_payload_length toy_platform toy_laws sep0 (PText "hi") (@RsaPssKey toy_platform sk_send)
           "sender" rsa_recipients st0 rsa_env (snd rsa_seal)); toy_hyp.
Defined.

Lemma unsealCore_step_order_witness :
  rsa_unseal = (fst rsa_unseal, snd rsa_unseal)
  /\ exists evs, trace (snd rsa_unseal) = trace st0 ++ evs
  /\ (evs = [] \/ exists ok rest,
        evs = EvVerify (signing_input (kid rsa_env) (cek rsa_env) (payload rsa_env)) ok :: rest
        /\ (rest <> [] -> ok = true)
        /\ Forall (fun e => 2 <= unseal_phase e) rest
        /\ nondecreasing (map unseal_phase rest) = true
        /\ (In (EvDecrypt "AES-GCM") rest -> commitment_ok sep0 rsa_env))
  /\ (forall out, fst rsa_unseal = Ok out
        -> commitment_ok sep0 rsa_env /\ In (EvDecrypt "AES-GCM") evs).
Proof.
  split; [toy_hyp|].
  apply (@unsealCore_step_order toy_platform sep0 rsa_env (@RsaOaepKey toy_platform sk_rcpt) "alice"
           rsa_sender_keys st0 (fst rsa_unseal) (snd rsa_unseal)); toy_hyp.
Defined.

Lemma unsealCore_missing_cek_witness :
  obj_get rsa_sender_keys (kid rsa_env) = JsOwn (RsaPssKey sk_send)
  /\ rsa_verify = (Ok true, snd rsa_verify)
  /\ obj_lookup (cek rsa_env) "carol"%string = None
  /\ unsealCore sep0 rsa_env (RsaOaepKey sk_rcpt) "carol" rsa_sender_keys st0
     = (Err TypeError, snd rsa_verify).
Proof.
  refine (conj _ (conj _ (conj _ _))); [toy_hyp | toy_hyp | toy_hyp |].
  apply (@unsealCore_missing_cek toy_platform sep0 rsa_env (@RsaOaepKey toy_platform sk_rcpt) "carol"
           rsa_sender_keys st0 (@RsaPssKey toy_platform sk_send) (snd rsa_verify)); toy_hyp.
Defined.

Lemma signature_over_kid_cek_payload_witness :
  rsa_seal = (Ok rsa_env, snd rsa_seal)
  /\ (exists sg, signature rsa_env = base64 sg
      /\ ((exists m salt, RsaPssKey sk_send = RsaPssKey m
             /\ sg = rsa_pss_sign m salt (signing_input (kid rsa_env) (cek rsa_env) (payload rsa_env)))
          \/ (exists c m nonce, RsaPssKey sk_send = EcdsaKey c m
             /\ sg = ecdsa_sign c m nonce (signing_input (kid rsa_env) (cek rsa_env) (payload rsa_env)))))
  /\ (forall env' rk rid sks st2 r st3,
        unsealCore sep0 env' rk rid sks st2 = (r, st3) ->
        exists evs, trace st3 = trace st2 ++ evs
        /\ forall msg ok, In (EvVerify msg ok) evs ->
             msg = signing_input (kid env') (cek env') (payload env')).
Proof.
  split; [toy_hyp|].
  apply (@signature_over_kid_cek_payload toy_platform sep0 (PText "hi") (@RsaPssKey toy_platform sk_send)
           "sender" rsa_recipients st0 rsa_env (snd rsa_seal)); toy_hyp.
Defined.

Lemma ecdh_p256_wrap_roundtrip_witness :
  aes_key_length_ok cek_raw = true
  /\ p256_wrap = (Ok (ok_or [] (fst p256_wrap)), snd p256_wrap)
  /\ (exists eph iv wrapped, ok_or [] (fst p256_wrap) = eph ++ iv ++ wrapped
       /\ length eph = 65 /\ length iv = 12 /\ length wrapped = length cek_raw + 16
       /\ exists e, eph = ec_export_raw P_256 (ec_public P_256 e))
  /\ forall st2, exists st3,
       decryptCEK (JsOwn (base64 (ok_or [] (fst p256_wrap)))) (EcdhKey P_256 sk_rcpt) st2
       = (Ok (AesKey cek_raw), st3).
Proof.
  refine (conj _ (conj _ _)); [toy_hyp | toy_hyp |].
  apply (@ecdh_p256_wrap_roundtrip toy_platform toy_laws cek_raw sk_rcpt st0
           (ok_or [] (fst p256_wrap)) (snd p256_wrap)); toy_hyp.
Defined.

Lemma tamper_detection_witness :
  rsa_seal = (Ok rsa_env, snd rsa_seal)
  /\ (forall kid' pk rk rid st2 out st3, kid' <> "sender"%string ->
       unsealCore sep0 (mkEnvelope kid' (cek rsa_env) (payload rsa_env) (signature rsa_env)
                          (ctx rsa_env))
         rk rid [("sender"%string, pk)] st2 <> (Ok out, st3))
  /\ (forall ctx' rk rid sks st2 out st3,
       base64ToUint8Array ctx' <> base64ToUint8Array (ctx rsa_env) ->
       unsealCore sep0 (mkEnvelope (kid rsa_env) (cek rsa_env) (payload rsa_env)
                          (signature rsa_env) ctx')
         rk rid sks st2 <> (Ok out, st3))
  /\ (forall env' rk rid sks st2 out st3,
       unsealCore sep0 env' rk rid sks st2 = (Ok out, st3) ->
       exists pk sb, obj_get sks (kid env') = JsOwn pk
       /\ base64ToUint8Array (signature env') = Ok sb
       /\ verify_accepts pk sb (signing_input (kid env') (cek env') (payload env')) = true).
Proof.
  split; [toy_hyp|].
  apply (@tamper_detection toy_platform toy_laws sep0 (PText "hi") (@RsaPssKey toy_platform sk_send)
           "sender" rsa_recipients st0 rsa_env (snd rsa_seal)); toy_hyp.
Defined.


(** C2 counterexample: flipping one byte of the [ctx] text of a sealed
    envelope (index 42, a bit the decoder drops) leaves the envelope
    accepted: [unsealCore] returns the plaintext. *)
Lemma tamper_ctx_accepted :
  rsa_seal = (Ok rsa_env, snd rsa_seal)
  /\ ctx (rsa_env_ctx 42 Byte.x02) <> ctx rsa_env
  /\ fst (unsealCore sep0 (rsa_env_ctx 42 Byte.x02) (RsaOaepKey sk_rcpt) "alice"
           rsa_sender_keys st0) = Ok (text_encode "hi").
Proof. refine (conj _ (conj _ _)); toy_hyp. Qed.


Ltac pair_hyp :=
  first [ apply (@rsa_pss_pair toy_platform) | apply (@ecdsa_pair toy_platform)
        | apply (@rsa_oaep_pair toy_platform) | apply (@ecdh_p256_pair toy_platform) ].

(** Proves the hypotheses of a witness one by one, each once, keeping them in
    the context for the application of the theorem. *)
Ltac wit_hyp :=
  lazymatch goal with
  | |- In _ _ => cbn [In]; auto
  | |- signing_pair _ _ => pair_hyp
  | |- recipient_pair _ _ => pair_hyp
  | |- forall bs, _ => exact toy_buffer_from_base64
  | |- _ => toy_hyp
  end.

Ltac wit_hyps :=
  lazymatch goal with
  | |- ?h /\ _ =>
      let H := fresh "H" in
      assert (H : h) by wit_hyp;
      split; [exact H | wit_hyps]
  | |- _ => idtac
  end.

Lemma unsealCore_sealCore_roundtrip_witness :
  rsa_seal = (Ok rsa_env, snd rsa_seal)
  /\ NoDup (map fst rsa_recipients)
  /\ obj_lookup rsa_recipients "alice"%string = Some (@RsaOaepKey toy_platform sk_rcpt)
  /\ "alice"%string <> "__proto__"%string
  /\ signing_pair (@RsaPssKey toy_platform sk_send) (@RsaPssKey toy_platform sk_send)
  /\ recipient_pair (@RsaOaepKey toy_platform sk_rcpt) (@RsaOaepKey toy_platform sk_rcpt)
  /\ exists st3, unsealCore sep0 rsa_env (@RsaOaepKey toy_platform sk_rcpt) "alice"
                   [("sender"%string, @RsaPssKey toy_platform sk_send)] st0
                 = (Ok (plaintext_bytes (PText "hi")), st3).
Proof.
  wit_hyps.
  apply (@unsealCore_sealCore_roundtrip toy_platform toy_laws toy_keypair_laws sep0 (PText "hi")
           (@RsaPssKey toy_platform sk_send) "sender" rsa_recipients st0 rsa_env (snd rsa_seal)
           (@RsaPssKey toy_platform sk_send) "alice" (@RsaOaepKey toy_platform sk_rcpt)
           (@RsaOaepKey toy_platform sk_rcpt) st0); assumption.
Defined.

Lemma unseal_seal_roundtrip_witness :
  sealer_seal = (Ok sealer_env, snd sealer_seal)
  /\ In (Unsealer.privateKid rsa_unsealer) ["alice"%string]
  /\ Unsealer.privateKid rsa_unsealer <> "__proto__"%string
  /\ obj_lookup (Sealer.recipientKeys rsa_sealer) (Unsealer.privateKid rsa_unsealer)
     = Some (@RsaOaepKey toy_platform sk_rcpt)
  /\ recipient_pair (@RsaOaepKey toy_platform sk_rcpt) (Unsealer.privateKey rsa_unsealer)
  /\ obj_lookup (Unsealer.senderKeys rsa_unsealer) (Sealer.privateKid rsa_sealer)
     = Some (@RsaPssKey toy_platform sk_send)
  /\ signing_pair (Sealer.privateKey rsa_sealer) (@RsaPssKey toy_platform sk_send)
  /\ exists st3, Unsealer.unseal sep0 rsa_unsealer sealer_env st0
                 = (Ok (plaintext_bytes (PText "hi")), st3).
Proof.
  wit_hyps.
  apply (@unseal_seal_roundtrip toy_platform toy_laws toy_keypair_laws sep0 rsa_sealer
           rsa_unsealer (PText "hi") ["alice"%string] st0 sealer_env (snd sealer_seal)
           (@RsaOaepKey toy_platform sk_rcpt) (@RsaPssKey toy_platform sk_send) st0); assumption.
Defined.

Lemma sealCore_cek_ids_witness :
  rsa_seal = (Ok rsa_env, snd rsa_seal)
  /\ (obj_lookup (cek rsa_env) "alice"%string <> None
      <-> obj_lookup rsa_recipients "alice"%string <> None /\ "alice"%string <> "__proto__"%string).
Proof.
  wit_hyps.
  apply (@sealCore_cek_ids toy_platform sep0 (PText "hi") (@RsaPssKey toy_platform sk_send)
           "sender" rsa_recipients st0 rsa_env (snd rsa_seal) "alice"); assumption.
Defined.

Lemma seal_cek_ids_witness :
  proto_seal = (Ok proto_env, snd proto_seal)
  /\ (obj_lookup (cek proto_env) "__proto__"%string <> None
      <-> In "__proto__"%string ["__proto__"; "alice"]%string
          /\ "__proto__"%string <> "__proto__"%string).
Proof.
  wit_hyps.
  apply (@seal_cek_ids toy_platform sep0 proto_sealer (PText "hi") ["__proto__"; "alice"]%string
           st0 proto_env (snd proto_seal) "__proto__"); assumption.
Defined.

Lemma sealCore_key_kinds_witness :
  sealCore sep0 (PBytes [Byte.x01; Byte.x02; Byte.x03]) (@EcdsaKey toy_platform P_256 sk_send)
    "sender" (ec_recipients P_256) st0
  = (Ok (ec_env P_256), snd (ec_seal P_256))
  /\ ((algorithm_name (@EcdsaKey toy_platform P_256 sk_send) = "RSA-PSS"%string
       /\ Forall (fun kv => algorithm_name (snd kv) = "RSA-OAEP"%string) (ec_recipients P_256))
      \/ (algorithm_name (@EcdsaKey toy_platform P_256 sk_send) = "ECDSA"%string
          /\ Forall (fun kv => algorithm_name (snd kv) = "ECDH"%string) (ec_recipients P_256))).
Proof.
  wit_hyps.
  apply (@sealCore_key_kinds toy_platform sep0 (PBytes [Byte.x01; Byte.x02; Byte.x03])
           (@EcdsaKey toy_platform P_256 sk_send) "sender" (ec_recipients P_256) st0 (ec_env P_256)
           (snd (ec_seal P_256))); assumption.
Defined.

Lemma decryptPayload_encryptPayload_witness :
  payload_run = (Ok (ok_or [] (fst payload_run)), snd payload_run)
  /\ exists st3, decryptPayload (base64 (ok_or [] (fst payload_run))) (AesKey cek_raw) st0
                 = (Ok (plaintext_bytes (PText "hi")), st3).
Proof.
  wit_hyps.
  apply (@decryptPayload_encryptPayload toy_platform toy_laws (PText "hi") cek_raw st0
           (ok_or [] (fst payload_run)) (snd payload_run) st0); assumption.
Defined.

Lemma legacy_unseal_seal_roundtrip_witness :
  (forall bs, buffer_from (base64 bs) = bs)
  /\ legacy_seal = (Ok legacy_env, snd legacy_seal)
  /\ NoDup (map fst rsa_recipients)
  /\ obj_lookup rsa_recipients "alice"%string = Some (@RsaOaepKey toy_platform sk_rcpt)
  /\ "alice"%string <> "__proto__"%string
  /\ signing_pair (@RsaPssKey toy_platform sk_send) (@RsaPssKey toy_platform sk_send)
  /\ recipient_pair (@RsaOaepKey toy_platform sk_rcpt) (@RsaOaepKey toy_platform sk_rcpt)
  /\ exists st3, Legacy.unsealCore buffer_from legacy_env (@RsaOaepKey toy_platform sk_rcpt)
                   "alice" [("sender"%string, @RsaPssKey toy_platform sk_send)] st0
                 = (Ok (plaintext_bytes (PText "hi")), st3).
Proof.
  wit_hyps.
  apply (@legacy_unseal_seal_roundtrip toy_platform buffer_from H toy_laws toy_keypair_laws
           (PText "hi") (@RsaPssKey toy_platform sk_send) "sender" rsa_recipients st0 legacy_env
           (snd legacy_seal) (@RsaPssKey toy_platform sk_send) "alice"
           (@RsaOaepKey toy_platform sk_rcpt) (@RsaOaepKey toy_platform sk_rcpt) st0);
    assumption.
Defined.

Lemma legacy_unsealCore_no_cek_witness :
  obj_get rsa_sender_keys (Legacy.kid legacy_env) = JsOwn (@RsaPssKey toy_platform sk_send)
  /\ legacy_verify = (Ok true, snd legacy_verify)
  /\ (fst (Legacy.unsealCore buffer_from legacy_env (@RsaOaepKey toy_platform sk_rcpt) "carol"
             rsa_sender_keys st0) = Err (Error "No CEK found for recipient")
      <-> obj_get (Legacy.cek legacy_env) "carol"%string = JsUndefined
          \/ obj_get (Legacy.cek legacy_env) "carol"%string = JsOwn ""%string).
Proof.
  wit_hyps.
  apply (@legacy_unsealCore_no_cek toy_platform buffer_from legacy_env
           (@RsaOaepKey toy_platform sk_rcpt) "carol" rsa_sender_keys
           (@RsaPssKey toy_platform sk_send) st0 (snd legacy_verify)); assumption.
Defined.

Lemma legacy_unsealCore_kid_relabel_witness :
  obj_get legacy_sender_keys2 "sender-old"%string
    = obj_get legacy_sender_keys2 (Legacy.kid legacy_env)
  /\ Legacy.unsealCore buffer_from
       (Legacy.mkEnvelope "sender-old" (Legacy.cek legacy_env) (Legacy.payload legacy_env)
          (Legacy.signature legacy_env))
       (@RsaOaepKey toy_platform sk_rcpt) "alice" legacy_sender_keys2 st0
     = Legacy.unsealCore buffer_from legacy_env (@RsaOaepKey toy_platform sk_rcpt) "alice"
         legacy_sender_keys2 st0.
Proof.
  wit_hyps.
  apply (@legacy_unsealCore_kid_relabel toy_platform buffer_from legacy_env "sender-old"
           (@RsaOaepKey toy_platform sk_rcpt) "alice" legacy_sender_keys2 st0); assumption.
Defined.

End Witnesses.
